(** * stop-words [manage.py]: the merge / normalise / sort pipeline

    A shallow embedding of [manage.py], the maintenance script of the
    stop-words repository, and the properties of its word-list pipeline.

    Conventions of the embedding.
    - A Python [str] is a Rocq [string] holding the UTF-8 encoding of the
      text; a [bytes] object (an ICU sort key) is a [string] as well.
    - A [pathlib.Path] is the [string] it prints as.
    - The file system is explicit state: a finite map from paths to files,
      the free space of the device, and a log of the system calls made.
    - A Python function that can raise is a computation in the monad [IO]:
      it returns either a value or the exception raised, and in both cases
      the world it leaves behind.
    - What the script imports ([unicodedata], [json], [pathlib], [icu],
      the built-in [repr] and the iteration order of [set]) is the
      interface [Platform]; the script is embedded over any instance.
    - An exception is its class and its message; the cause chained to it
      by [raise ... from err] is not kept.
    - A path names a regular file or nothing, and the text of a file
      decodes; the exceptions modelled are those the script handles. *)

From Stdlib Require Import String Ascii List Sorted Permutation Lia.
From stdpp Require Import base tactics option list sorting gmap strings.

Local Open Scope string_scope.
Local Open Scope list_scope.
#[local] Set Warnings "-clear-no-such-hyp".

(** ** Exceptions and the [IO] monad *)

Inductive exn : Type :=
  | OSError
  | JSONDecodeError
  | ImportError
  | KeyError
  | LanguageDataError (msg : string)
  | SystemExit (msg : string).

Inductive result (A : Type) : Type :=
  | Ok (a : A)
  | Raise (e : exn).
Arguments Ok {A} a.
Arguments Raise {A} e.

Inductive io_event : Type :=
  | OpenRead (path : string)
  | OpenWrite (path : string)
  | PathExists (path : string).

Record file : Type := File {
  content : string;
  readable : bool;
  writable : bool
}.

Record world : Type := World {
  files : gmap string file;
  free_space : nat;
  log : list io_event
}.

Definition IO (A : Type) : Type := world -> result A * world.

Definition ret {A} (a : A) : IO A := fun w => (Ok a, w).

Definition raise {A} (e : exn) : IO A := fun w => (Raise e, w).

Definition bind {A B} (m : IO A) (k : A -> IO B) : IO B :=
  fun w =>
    match m w with
    | (Ok a, w') => k a w'
    | (Raise e, w') => (Raise e, w')
    end.

(** [try: m except: h]: the handler sees every exception of [m]; a handler
    that does not match re-raises. *)
Definition try_except {A} (m : IO A) (h : exn -> IO A) : IO A :=
  fun w =>
    match m w with
    | (Ok a, w') => (Ok a, w')
    | (Raise e, w') => h e w'
    end.

Declare Scope io_scope.
Delimit Scope io_scope with io.
Notation "x <- m ;; k" := (bind m (fun x => k))
  (at level 100, m at next level, right associativity) : io_scope.
Notation "m ;;; k" := (bind m (fun _ => k))
  (at level 100, right associativity) : io_scope.
Local Open Scope io_scope.

(** [for x in xs: body x], stopping at the first exception. *)
Fixpoint for_each {A} (xs : list A) (body : A -> IO unit) : IO unit :=
  match xs with
  | [] => ret tt
  | x :: xs' => body x ;;; for_each xs' body
  end.

(** ** Text files *)

Definition LF : ascii := "010"%char.
Definition CR : ascii := "013"%char.

(** Text mode with [newline=None]: on input, ["\r\n"] and a lone ["\r"]
    become ["\n"]. *)
Fixpoint universal_newlines (s : string) : string :=
  match s with
  | EmptyString => EmptyString
  | String c rest =>
      if Ascii.eqb c CR then
        match rest with
        | String c' rest' =>
            if Ascii.eqb c' LF then String LF (universal_newlines rest')
            else String LF (universal_newlines rest)
        | EmptyString => String LF EmptyString
        end
      else String c (universal_newlines rest)
  end.

(** Lines keep their terminator; a last line without one is kept as is. *)
Fixpoint split_keepends (s : string) : list string :=
  match s with
  | EmptyString => []
  | String c rest =>
      if Ascii.eqb c LF then String c EmptyString :: split_keepends rest
      else
        match split_keepends rest with
        | [] => [String c EmptyString]
        | l :: ls => String c l :: ls
        end
  end.

(** [file.readlines()] on the text of a file. *)
Definition readlines (text : string) : list string :=
  split_keepends (universal_newlines text).

(** [file.writelines(words)]: the items one after the other, nothing added
    between them. On POSIX ["\n"] is written as it is. *)
Definition writelines (words : list string) : string :=
  foldr String.append EmptyString words.

Definition take_string (n : nat) (s : string) : string := substring 0 n s.

(** ** The operating system's file calls *)

Definition log_event (ev : io_event) : IO unit :=
  fun w => (Ok tt, World (files w) (free_space w) (log w ++ [ev])).

(** [open(path)] followed by reading the whole file: the text, or the
    [OSError] of a path that is missing or may not be read. A file whose
    bytes do not decode, on which CPython raises [UnicodeDecodeError], is
    not among the files of this world. *)
Definition open_read (path : string) : IO string :=
  log_event (OpenRead path) ;;;
  fun w =>
    match files w !! path with
    | Some f => if readable f then (Ok (content f), w) else (Raise OSError, w)
    | None => (Raise OSError, w)
    end.

(** [Path.exists()], for the paths on which the system call answers. A
    path on which it raises (a name too long, a directory that may not be
    searched) is not among the paths of this world. *)
Definition path_exists (path : string) : IO bool :=
  log_event (PathExists path) ;;;
  fun w => (Ok (bool_decide (is_Some (files w !! path))), w).

(** What [open(path, 'w')], [writelines] and closing do to the device.
    Opening is refused for a file without write permission, which is then
    left as it is. Otherwise the file is created or truncated on opening,
    which gives its space back to the device; the data that fits is
    written, and when the device is full the rest is lost and the call
    raises. *)
Definition store_file (path : string) (data : string) : IO unit :=
  fun w =>
    let old := files w !! path in
    if bool_decide (writable <$> old = Some false) then (Raise OSError, w)
    else
      let room := free_space w + from_option (fun f => String.length (content f)) 0 old in
      let rd := from_option readable true old in
      if bool_decide (String.length data <= room) then
        (Ok tt,
         World (<[path := File data rd true]> (files w))
               (room - String.length data) (log w))
      else
        (Raise OSError,
         World (<[path := File (take_string room data) rd true]> (files w))
               0 (log w)).

(** [open(path, 'w')], writing [data] and closing. *)
Definition open_write (path : string) (data : string) : IO unit :=
  log_event (OpenWrite path) ;;;
  store_file path data.

(** ** Python dictionaries, in insertion order *)

Section Dict.
Context {V : Type}.

(** [d[k] = v]: an existing key keeps its place, a new one goes last. *)
Fixpoint dict_set (k : string) (v : V) (d : list (string * V)) : list (string * V) :=
  match d with
  | [] => [(k, v)]
  | (k', v') :: d' =>
      if decide (k' = k) then (k', v) :: d' else (k', v') :: dict_set k v d'
  end.

(** [dict(pairs)]. *)
Definition dict_of_pairs (pairs : list (string * V)) : list (string * V) :=
  fold_left (fun d kv => dict_set kv.1 kv.2 d) pairs [].

(** [d.get(k)]. *)
Fixpoint dict_get (k : string) (d : list (string * V)) : option V :=
  match d with
  | [] => None
  | (k', v) :: d' => if decide (k' = k) then Some v else dict_get k d'
  end.

(** [d[k]], which raises [KeyError] for a missing key. *)
Definition dict_subscript (k : string) (d : list (string * V)) : IO V :=
  match dict_get k d with
  | Some v => ret v
  | None => raise KeyError
  end.

(** [list(d.keys())]. *)
Definition dict_keys (d : list (string * V)) : list string := d.*1.
End Dict.

(** ** What the script imports *)

(** A document as [json.load] sees it; an object lists its members in the
    order of the document. *)
#[local] Set Warnings "-register-all".
Inductive json : Type :=
  | JNull
  | JBool (b : bool)
  | JNumber (literal : string)
  | JString (s : string)
  | JArray (items : list json)
  | JObject (members : list (string * json)).

Inductive strength : Type :=
  | PRIMARY | SECONDARY | TERTIARY | QUATERNARY | IDENTICAL.

(** The [icu] module: the table of [Locale.getAvailableLocales()], keyed by
    locale name, and the sort key a collator of a locale computes at a
    strength. *)
Record icu_module : Type := IcuModule {
  getAvailableLocales : gmap string string;
  sort_key : string -> strength -> string -> string
}.

Record collator : Type := Collator {
  col_locale : string;
  col_strength : strength
}.

Class Platform : Type := {
  (** [repr(s)] of a [str]. *)
  repr : string -> string;
  (** [unicodedata.normalize('NFC', s)]. *)
  normalize_NFC : string -> string;
  (** The JSON parser; [None] is [json.JSONDecodeError]. *)
  json_parse : string -> option json;
  (** [root / name] of [pathlib]. *)
  joinpath : string -> string -> string;
  (** [pathlib.Path(__file__).parent]. *)
  script_dir : string;
  (** The order in which a [set] is iterated. *)
  set_iter : gset string -> list string;
  set_iter_perm : forall s, set_iter s ≡ₚ elements s;
  (** [import icu]; [None] is [ImportError]. *)
  icu : option icu_module
}.

(** ** [sorted(words, key=...)] *)

Section Sorted.
Context (key : string -> string).

(** [bytes] are compared with [<], byte by byte. *)
Definition key_lt (x y : string) : bool := String.ltb (key x) (key y).

Fixpoint insert_sorted (x : string) (l : list string) : list string :=
  match l with
  | [] => [x]
  | y :: l' => if key_lt y x then y :: insert_sorted x l' else x :: y :: l'
  end.

Definition key_le (x y : string) : Prop := String.le (key x) (key y).

(** A stable sort: of two words with the same key, the one met first
    comes first. *)
Fixpoint sorted (words : list string) : list string :=
  match words with
  | [] => []
  | x :: words' => insert_sorted x (sorted words')
  end.
End Sorted.

(** ** The script *)

Section Manage.
Context `{Platform}.

(** *** [class LanguageDataIndexPayload] *)

Record LanguageDataIndexPayload : Type := Payload {
  root_path : string;
  path_mapping : list (string * string)
}.

Definition get_lang_codes (self : LanguageDataIndexPayload) : list string :=
  dict_keys (path_mapping self).

Definition get_path (self : LanguageDataIndexPayload) (lang : string) : IO string :=
  match dict_get lang (path_mapping self) with
  | None => raise (LanguageDataError ("Unrecognized language " ++ repr lang))
  | Some stem => ret (joinpath (root_path self) (stem ++ ".txt"))
  end.

Definition read_language_file (self : LanguageDataIndexPayload) (lang : string)
  : IO (list string) :=
  try_except
    (path <- get_path self lang ;;
     text <- open_read path ;;
     ret (readlines text))
    (fun err =>
       match err with
       | OSError =>
           stem <- dict_subscript lang (path_mapping self) ;;
           raise (LanguageDataError ("Could not read language file " ++ stem))
       | _ => raise err
       end).

Definition write_to_language_file (self : LanguageDataIndexPayload) (lang : string)
    (words : list string) : IO unit :=
  try_except
    (path <- get_path self lang ;;
     open_write path (writelines words))
    (fun err =>
       match err with
       | OSError =>
           stem <- dict_subscript lang (path_mapping self) ;;
           raise (LanguageDataError
                    ("Could not open language file " ++ stem ++ " for writing"))
       | _ => raise err
       end).

(** *** [class LanguageDataIndex] *)

Record LanguageDataIndex : Type := Index { index_root : string }.

Definition LanguageDataIndex_init (root : option string) : LanguageDataIndex :=
  match root with
  | None => Index script_dir
  | Some r => Index r
  end.

(** [json.load(file)]. *)
Definition json_load (text : string) : IO json :=
  match json_parse (universal_newlines text) with
  | Some doc => ret doc
  | None => raise JSONDecodeError
  end.

(** The payload is annotated [dict[str, str]]: the values that are
    strings, which after the loop of [__enter__] is all of them. *)
Definition str_values (d : list (string * json)) : list (string * string) :=
  omap (fun kv => match kv.2 with JString s => Some (kv.1, s) | _ => None end) d.

Definition check_entry (root index_path : string) (kv : string * json) : IO unit :=
  let bad :=
    raise (LanguageDataError
             ("Expected the key " ++ repr kv.1 ++ " in " ++ index_path
              ++ " to point to a valid language file")) in
  match kv.2 with
  | JString value =>
      found <- path_exists (joinpath root (value ++ ".txt")) ;;
      if found then ret tt else bad
  | _ => bad
  end.

Definition __enter__ (self : LanguageDataIndex) : IO LanguageDataIndexPayload :=
  let index_path := joinpath (index_root self) "languages.json" in
  doc <- try_except
           (text <- open_read (joinpath (index_root self) "languages.json") ;;
            json_load text)
           (fun err =>
              match err with
              | OSError =>
                  raise (LanguageDataError
                           ("Could not read language index file " ++ index_path))
              | JSONDecodeError =>
                  raise (LanguageDataError
                           ("Could not parse the language index file " ++ index_path))
              | _ => raise err
              end) ;;
  match doc with
  | JObject members =>
      let path_mapping := dict_of_pairs members in
      for_each path_mapping (check_entry (index_root self) index_path) ;;;
      ret (Payload (index_root self) (str_values path_mapping))
  | _ =>
      raise (LanguageDataError
               ("Expected the language index file " ++ index_path
                ++ " to be a JSON dictionary"))
  end.

(** [__exit__] is [pass]: it returns [None], so an exception of the body
    goes on. *)
Definition __exit__ (self : LanguageDataIndex) : IO unit := ret tt.

(** [with self as lang_index: body]. *)
Definition with_ {A} (self : LanguageDataIndex)
    (body : LanguageDataIndexPayload -> IO A) : IO A :=
  fun w =>
    match __enter__ self w with
    | (Raise e, w1) => (Raise e, w1)
    | (Ok lang_index, w1) =>
        let (outcome, w2) := body lang_index w1 in
        match __exit__ self w2 with
        | (Ok _, w3) => (outcome, w3)
        | (Raise e, w3) => (Raise e, w3)
        end
    end.

(** *** [sort_word_list] *)

Definition import_icu : IO icu_module :=
  match icu with
  | Some m => ret m
  | None => raise ImportError
  end.

Definition createInstance (locale : string) : collator := Collator locale TERTIARY.

Definition setStrength (c : collator) (s : strength) : collator :=
  Collator (col_locale c) s.

Definition getSortKey (m : icu_module) (c : collator) (word : string) : string :=
  sort_key m (col_locale c) (col_strength c) word.

Definition sort_word_list (lang : string) (words : list string) : IO (list string) :=
  m <- try_except import_icu
         (fun err =>
            match err with
            | ImportError =>
                raise (LanguageDataError "PyICU is needed for proper unicode sorting")
            | _ => raise err
            end) ;;
  let icu_locales := getAvailableLocales m in
  locale <- try_except
              (match icu_locales !! lang with
               | Some l => ret l
               | None => raise KeyError
               end)
              (fun err =>
                 match err with
                 | KeyError =>
                     raise (LanguageDataError
                              ("No ICU locale available for language " ++ repr lang))
                 | _ => raise err
                 end) ;;
  let c := createInstance locale in
  let c := setStrength c IDENTICAL in
  ret (sorted (getSortKey m c) words).

(** *** [merge_language_files] *)

(** The set comprehension, and the [add] loop over the lines of a file. *)
Definition add_words (word_bag : gset string) (lines : list string) : gset string :=
  foldl (fun bag word => bag ∪ {[ normalize_NFC word ]}) word_bag lines.

Fixpoint merge_new_paths (new_paths : list string) (word_bag : gset string)
  : IO (gset string) :=
  match new_paths with
  | [] => ret word_bag
  | path :: rest =>
      bag <- try_except
               (text <- open_read path ;;
                ret (add_words word_bag (readlines text)))
               (fun err =>
                  match err with
                  | OSError =>
                      raise (SystemExit ("Could not read " ++ path ++ ". Aborting."))
                  | _ => raise err
                  end) ;;
      merge_new_paths rest bag
  end.

Definition merge_language_files (lang_index : LanguageDataIndexPayload)
    (lang : string) (new_paths : list string) : IO unit :=
  lines <- read_language_file lang_index lang ;;
  let word_bag := add_words ∅ lines in
  word_bag <- merge_new_paths new_paths word_bag ;;
  words <- sort_word_list lang (set_iter word_bag) ;;
  write_to_language_file lang_index lang words.

(** *** [cli] *)

Inductive command : Type :=
  | CmdSort (lang : string)
  | CmdSortAll
  | CmdMerge (lang : string) (rest : list string)
  | CmdNone.

Definition cli (cmd : command) : IO unit :=
  match cmd with
  | CmdSort lang =>
      with_ (LanguageDataIndex_init None) (fun lang_index =>
        merge_language_files lang_index lang [])
  | CmdSortAll =>
      with_ (LanguageDataIndex_init None) (fun lang_index =>
        for_each (get_lang_codes lang_index)
                 (fun code => merge_language_files lang_index code []))
  | CmdMerge lang rest =>
      with_ (LanguageDataIndex_init None) (fun lang_index =>
        merge_language_files lang_index lang rest)
  | CmdNone => ret tt
  end.
End Manage.

(** A word as the lists hold them: some characters other than line feed
    and carriage return, then one line feed. *)
Fixpoint is_line (s : string) : bool :=
  match s with
  | EmptyString => false
  | String c rest =>
      if Ascii.eqb c LF then
        match rest with
        | EmptyString => true
        | String _ _ => false
        end
      else if Ascii.eqb c CR then false
      else is_line rest
  end.

(** ** Vocabulary for the statements *)

Section Outcomes.
Context `{Platform}.

(** The path of a registered language. *)
Definition lang_path (self : LanguageDataIndexPayload) (lang : string) : option string :=
  (fun stem => joinpath (root_path self) (stem ++ ".txt"))
    <$> dict_get lang (path_mapping self).

Definition can_read (w : world) (path : string) : bool :=
  from_option readable false (files w !! path).

(** The lines [readlines] gives for the file at a path. *)
Definition lines_of (w : world) (path : string) : list string :=
  from_option (fun f => readlines (content f)) [] (files w !! path).

(** The same world after some more system calls were logged. *)
Definition logged (evs : list io_event) (w : world) : world :=
  World (files w) (free_space w) (log w ++ evs).

Fixpoint first_unreadable (w : world) (paths : list string) : option string :=
  match paths with
  | [] => None
  | p :: ps => if can_read w p then first_unreadable w ps else Some p
  end.

(** The paths up to and including the first unreadable one. *)
Fixpoint attempted (w : world) (paths : list string) : list string :=
  match paths with
  | [] => []
  | p :: ps => if can_read w p then p :: attempted w ps else [p]
  end.

(** The set of the normalised lines. *)
Definition word_set (lines : list string) : gset string :=
  list_to_set (normalize_NFC <$> lines).

(** All the lines a merge reads: the language file, then the new files. *)
Definition input_lines (w : world) (path : string) (new_paths : list string)
  : list string :=
  lines_of w path ++ mjoin (lines_of w <$> new_paths).

(** Two strings are canonically equivalent when they normalise alike. *)
Definition canonically_equivalent (s t : string) : Prop :=
  normalize_NFC s = normalize_NFC t.

Definition unknown_language (lang : string) : exn :=
  LanguageDataError ("Unrecognized language " ++ repr lang).

Definition read_failure (stem : string) : exn :=
  LanguageDataError ("Could not read language file " ++ stem).

Definition write_failure (stem : string) : exn :=
  LanguageDataError ("Could not open language file " ++ stem ++ " for writing").

Definition collation_unavailable : exn :=
  LanguageDataError "PyICU is needed for proper unicode sorting".

Definition unsupported_locale (lang : string) : exn :=
  LanguageDataError ("No ICU locale available for language " ++ repr lang).

Definition extra_file_failure (path : string) : exn :=
  SystemExit ("Could not read " ++ path ++ ". Aborting.").


(** Whether the message of an exception contains a given text. *)
Definition message_of (e : exn) : string :=
  match e with
  | LanguageDataError msg | SystemExit msg => msg
  | _ => EmptyString
  end.

Definition names (e : exn) (text : string) : bool :=
  bool_decide (is_Some (String.index 0 text (message_of e))).

(** The registry: the file an entry points to, whether the entry passes
    the check of [__enter__], and the first entry that does not. *)
Definition entry_path (root : string) (kv : string * json) : option string :=
  match kv.2 with
  | JString value => Some (joinpath root (value ++ ".txt"))
  | _ => None
  end.

Definition entry_valid (w : world) (root : string) (kv : string * json) : bool :=
  match entry_path root kv with
  | Some path => bool_decide (is_Some (files w !! path))
  | None => false
  end.

Fixpoint first_invalid (w : world) (root : string) (d : list (string * json))
  : option string :=
  match d with
  | [] => None
  | kv :: d' => if entry_valid w root kv then first_invalid w root d' else Some kv.1
  end.

(** The paths whose existence is asked, up to the first entry that fails. *)
Fixpoint checked (w : world) (root : string) (d : list (string * json)) : list string :=
  match d with
  | [] => []
  | kv :: d' =>
      match entry_path root kv with
      | Some path => if entry_valid w root kv then path :: checked w root d' else [path]
      | None => []
      end
  end.

Definition index_path_of (self : LanguageDataIndex) : string :=
  joinpath (index_root self) "languages.json".

(** The registry document, when the index file can be read and parsed. *)
Definition registry_document (self : LanguageDataIndex) (w : world) : option json :=
  if can_read w (index_path_of self)
  then json_parse (universal_newlines
                     (from_option content EmptyString (files w !! index_path_of self)))
  else None.

(** The registry is readable, is an object, and every entry passes. *)
Definition registry_valid (self : LanguageDataIndex) (w : world) : bool :=
  match registry_document self w with
  | Some (JObject members) =>
      forallb (entry_valid w (index_root self)) (dict_of_pairs members)
  | _ => false
  end.

Definition registry_not_found (index_path : string) : exn :=
  LanguageDataError ("Could not read language index file " ++ index_path).

Definition registry_unparsable (index_path : string) : exn :=
  LanguageDataError ("Could not parse the language index file " ++ index_path).

Definition registry_not_a_dict (index_path : string) : exn :=
  LanguageDataError
    ("Expected the language index file " ++ index_path ++ " to be a JSON dictionary").

Definition registry_entry_invalid (index_path key : string) : exn :=
  LanguageDataError
    ("Expected the key " ++ repr key ++ " in " ++ index_path
     ++ " to point to a valid language file").

(** The system calls of sorting one registered language. *)
Definition sort_events (self : LanguageDataIndexPayload) (code : string)
  : list io_event :=
  match lang_path self code with
  | Some path => [OpenRead path; OpenWrite path]
  | None => []
  end.

(** What [sort_word_list] answers, the world apart. *)
Definition sort_answer (lang : string) (words : list string) : result (list string) :=
  match icu with
  | None => Raise collation_unavailable
  | Some m =>
      match getAvailableLocales m !! lang with
      | None => Raise (unsupported_locale lang)
      | Some locale => Ok (sorted (sort_key m locale IDENTICAL) words)
      end
  end.
End Outcomes.

(** ** What the checks of the registry answered *)

Section Answers.
Context `{Platform}.

(** The value of the entry is a string, and [exists()] answered [True] for
    its file. *)
Definition entry_found (w : world) (root : string) (kv : string * json) : Prop :=
  exists value,
    kv.2 = JString value /\
    (path_exists (joinpath root (value ++ ".txt")) w).1 = Ok true.

(** The value of the entry is not a string, or [exists()] answered [False]
    for its file. *)
Definition entry_refused (w : world) (root : string) (kv : string * json) : Prop :=
  (forall value, kv.2 <> JString value) \/
  (exists value,
     kv.2 = JString value /\
     (path_exists (joinpath root (value ++ ".txt")) w).1 = Ok false).
End Answers.

(** ** A small platform to run the script on

    An instance of [Platform] that agrees with CPython and ICU on the texts
    used in the examples below: lower-case ASCII words, and the letter e
    with an acute accent in its two encodings. *)

Module Demo.

Definition dq : string := String "034"%char EmptyString.

(** [repr] of a string without quotes, backslashes or control characters. *)
Definition demo_repr (s : string) : string := "'" ++ s ++ "'".

(** U+0301, the combining acute accent, and U+00E9, e with acute. *)
Definition combining_acute : string :=
  String "204"%char (String "129"%char EmptyString).
Definition e_acute : string :=
  String "195"%char (String "169"%char EmptyString).

(** NFC, for text whose only combining mark is an acute accent on an e. *)
Fixpoint demo_nfc (s : string) : string :=
  match s with
  | EmptyString => EmptyString
  | String c rest =>
      if Ascii.eqb c "e"%char then
        match rest with
        | String c1 (String c2 rest') =>
            if Ascii.eqb c1 "204"%char && Ascii.eqb c2 "129"%char
            then e_acute ++ demo_nfc rest'
            else String c (demo_nfc rest)
        | _ => String c (demo_nfc rest)
        end
      else String c (demo_nfc rest)
  end.

(** Two registry documents, and what [json.loads] makes of them. *)
Definition doc_en : string :=
  "{" ++ dq ++ "en" ++ dq ++ ": " ++ dq ++ "english" ++ dq ++ "}".
Definition doc_en_fr : string :=
  "{" ++ dq ++ "en" ++ dq ++ ": " ++ dq ++ "english" ++ dq ++ ", "
      ++ dq ++ "fr" ++ dq ++ ": " ++ dq ++ "french" ++ dq ++ "}".

Definition demo_json_parse (text : string) : option json :=
  if decide (text = doc_en) then
    Some (JObject [("en", JString "english")])
  else if decide (text = doc_en_fr) then
    Some (JObject [("en", JString "english"); ("fr", JString "french")])
  else if decide (text = "[]") then Some (JArray [])
  else None.

(** Only English is a locale here. The key of a word is the word itself,
    which orders the words of the examples as ICU orders them. *)
Definition demo_icu : icu_module :=
  IcuModule {[ "en" := "en" ]} (fun locale s word => word).

Definition demo : Platform := {|
  repr := demo_repr;
  normalize_NFC := demo_nfc;
  json_parse := demo_json_parse;
  joinpath := fun root name => (root ++ "/" ++ name)%string;
  script_dir := "/srv";
  set_iter := elements;
  set_iter_perm := fun s => reflexivity (elements s);
  icu := Some demo_icu
|}.

Definition nl : string := String LF EmptyString.

(** A word with its line terminator. *)
Definition line (word : string) : string := (word ++ nl)%string.

Definition plain (text : string) : file := File text true true.

(** The registry with English only, as [__enter__] returns it. *)
Definition english : LanguageDataIndexPayload :=
  Payload "/srv" [("en", "english")].

(** A full device: the English list holds one word, a new file another. *)
Definition full_disk : world :=
  World {[ "/srv/english.txt" := plain (line "b");
           "/tmp/new.txt" := plain (line "a") ]} 0 [].

(** The word cafe with its accent, composed and decomposed. *)
Definition cafe_composed : string := ("caf" ++ e_acute)%string.
Definition cafe_decomposed : string := ("cafe" ++ combining_acute)%string.

(** The English list spells the word one way, a new file the other way. *)
Definition two_spellings : world :=
  World {[ "/srv/english.txt" := plain (line "the" ++ line cafe_composed);
           "/tmp/new.txt" := plain (line cafe_decomposed ++ line "a") ]} 64 [].

(** The English list cannot be read, and the new file does not exist. *)
Definition locked_list : world :=
  World {[ "/srv/english.txt" := File (line "b") false true ]} 64 [].

(** The English list holds one word, spelt decomposed. *)
Definition decomposed_list : world :=
  World {[ "/srv/english.txt" := plain (line cafe_decomposed) ]} 64 [].

(** The English list as a sort leaves it. *)
Definition sorted_list : world :=
  World {[ "/srv/english.txt" := plain (line "a" ++ line "b") ]} 0 [].

(** Lists whose last line has no terminator: the word [a] twice, once
    terminated and once not; and the words [a] and [b]. *)
Definition unterminated_twin : world :=
  World {[ "/srv/english.txt" := plain (line "a" ++ "a") ]} 64 [].

Definition unterminated_last : world :=
  World {[ "/srv/english.txt" := plain (line "a" ++ "b") ]} 64 [].

(** Two registered languages; only the first has a locale. *)
Definition two_languages : world :=
  World {[ "/srv/languages.json" := plain doc_en_fr;
           "/srv/english.txt" := plain (line "b" ++ line "a");
           "/srv/french.txt" := plain (line "z" ++ line "y") ]} 64 [].

Definition english_french : LanguageDataIndexPayload :=
  Payload "/srv" [("en", "english"); ("fr", "french")].

(** A list with the line ends of another system: each line is ended by a
    carriage return and a line feed. *)
Definition crlf_list : world :=
  World {[ "/srv/english.txt"
             := plain ("a" ++ String CR nl ++ "b" ++ String CR nl) ]} 0 [].

(** The registry names English and French, and the French list is
    missing. *)
Definition french_missing : world :=
  World {[ "/srv/languages.json" := plain doc_en_fr;
           "/srv/english.txt" := plain (line "a") ]} 64 [].

(** The same platform without the [icu] module. *)
Definition demo_without_icu : Platform := {|
  repr := demo_repr;
  normalize_NFC := demo_nfc;
  json_parse := demo_json_parse;
  joinpath := fun root name => (root ++ "/" ++ name)%string;
  script_dir := "/srv";
  set_iter := elements;
  set_iter_perm := fun s => reflexivity (elements s);
  icu := None
|}.

(** A list of one word and two new files of one word each. *)
Definition three_files : world :=
  World {[ "/srv/english.txt" := plain (line "b");
           "/tmp/new.txt" := plain (line "a");
           "/tmp/more.txt" := plain (line "c") ]} 64 [].

(** The platform without [icu], with a parser that also knows the empty
    registry. *)
Definition demo_empty_object : Platform := {|
  repr := demo_repr;
  normalize_NFC := demo_nfc;
  json_parse := fun text =>
    if decide (text = "{}") then Some (JObject []) else demo_json_parse text;
  joinpath := fun root name => (root ++ "/" ++ name)%string;
  script_dir := "/srv";
  set_iter := elements;
  set_iter_perm := fun s => reflexivity (elements s);
  icu := None
|}.

Definition empty_registry : world :=
  World {[ "/srv/languages.json" := plain "{}" ]} 0 [].

(** The English list can be read and not written. *)
Definition read_only_list : world :=
  World {[ "/srv/english.txt" := File (line "b" ++ line "a") true false ]} 64 [].

(** The English list spells cafe composed; the new file spells it
    decomposed, and then composed on a last line without terminator. *)
Definition unterminated_spelling : world :=
  World {[ "/srv/english.txt" := plain (line cafe_composed);
           "/tmp/new.txt" := plain (line cafe_decomposed ++ cafe_composed) ]} 64 [].

End Demo.

(** * Properties *)

(** A decidable statement about closed terms, settled by evaluation. *)
Ltac by_computation := refine (bool_decide_unpack _ _); vm_compute; exact I.

(** ** The monad *)

Lemma bind_ok {A B} (m : IO A) (k : A -> IO B) w a w1 :
  m w = (Ok a, w1) -> bind m k w = k a w1.
Proof. unfold bind. by intros ->. Qed.

Lemma bind_raise {A B} (m : IO A) (k : A -> IO B) w e w1 :
  m w = (Raise e, w1) -> bind m k w = (Raise e, w1).
Proof. unfold bind. by intros ->. Qed.

Lemma for_each_app {A} (xs ys : list A) (body : A -> IO unit) w w1 :
  for_each xs body w = (Ok tt, w1) ->
  for_each (xs ++ ys) body w = for_each ys body w1.
Proof.
  revert w. induction xs as [|x xs IH]; intros w Hrun; simpl in *.
  - unfold ret in Hrun. by inversion Hrun.
  - unfold bind in *. destruct (body x w) as [[[]|e] w2]; [|done]. by apply IH.
Qed.

Lemma for_each_raise_at {A} (xs ys : list A) (x : A) (body : A -> IO unit) w w1 e w2 :
  for_each xs body w = (Ok tt, w1) ->
  body x w1 = (Raise e, w2) ->
  for_each (xs ++ x :: ys) body w = (Raise e, w2).
Proof.
  intros Hpre Hx. rewrite (for_each_app _ _ _ _ _ Hpre). simpl.
  by apply bind_raise.
Qed.

(** ** Text *)

Lemma concat_split_keepends s : writelines (split_keepends s) = s.
Proof.
  unfold writelines. induction s as [|c s IH]; [done|]. simpl.
  destruct (Ascii.eqb c LF).
  - simpl. by rewrite IH.
  - destruct (split_keepends s) as [|l ls]; simpl in *.
    + by rewrite <- IH.
    + by rewrite <- IH.
Qed.

Lemma writelines_readlines text :
  writelines (readlines text) = universal_newlines text.
Proof. apply concat_split_keepends. Qed.

(** ** Sorting *)

Section SortedFacts.
Context (key : string -> string).

Lemma key_lt_false x y : key_lt key y x = false -> key_le key x y.
Proof.
  unfold key_lt, key_le, String.le, String.ltb, String.leb.
  rewrite (String.compare_antisym (key y) (key x)).
  by destruct (String.compare (key x) (key y)).
Qed.

Lemma key_lt_true x y : key_lt key y x = true -> key_le key y x.
Proof.
  unfold key_lt, key_le, String.le, String.ltb, String.leb.
  by destruct (String.compare (key y) (key x)).
Qed.

Lemma key_le_not_lt x y : key_le key x y -> key_lt key y x = false.
Proof.
  unfold key_lt, key_le, String.le, String.ltb, String.leb.
  rewrite (String.compare_antisym (key y) (key x)).
  by destruct (String.compare (key x) (key y)).
Qed.

Lemma key_le_trans x y z : key_le key x y -> key_le key y z -> key_le key x z.
Proof. unfold key_le. intros ? ?. by etrans. Qed.

Lemma key_le_antisym x y : key_le key x y -> key_le key y x -> key x = key y.
Proof. unfold key_le. intros ? ?. by apply (anti_symm String.le). Qed.

Lemma insert_sorted_perm x l : insert_sorted key x l ≡ₚ x :: l.
Proof.
  induction l as [|y l IH]; simpl; [done|].
  destruct (key_lt key y x); [|done].
  by rewrite IH, Permutation_swap.
Qed.

Lemma sorted_perm l : sorted key l ≡ₚ l.
Proof.
  induction l as [|x l IH]; simpl; [done|].
  by rewrite insert_sorted_perm, IH.
Qed.

Lemma insert_sorted_StronglySorted x l :
  StronglySorted (key_le key) l -> StronglySorted (key_le key) (insert_sorted key x l).
Proof.
  induction 1 as [|y l Hl IH Hy]; simpl.
  - repeat constructor.
  - destruct (key_lt key y x) eqn:Hlt.
    + constructor; [done|].
      rewrite insert_sorted_perm. constructor; [|done].
      by apply key_lt_true.
    + apply key_lt_false in Hlt.
      constructor; [by constructor|].
      constructor; [done|].
      eapply Forall_impl; [exact Hy|]. intros z Hz. by eapply key_le_trans.
Qed.

Lemma sorted_StronglySorted l : StronglySorted (key_le key) (sorted key l).
Proof.
  induction l as [|x l IH]; simpl; [constructor|].
  by apply insert_sorted_StronglySorted.
Qed.

(** An already sorted list is left as it is: the sort is stable. *)
Lemma sorted_fixed l : StronglySorted (key_le key) l -> sorted key l = l.
Proof.
  induction 1 as [|x l Hl IH Hx]; simpl; [done|].
  rewrite IH. destruct l as [|y l]; simpl; [done|].
  inversion Hx as [|? ? Hxy _]; subst.
  by rewrite (key_le_not_lt _ _ Hxy).
Qed.

(** When the key tells the words apart, the order of the input does not
    matter. *)
Lemma sorted_unique l1 l2 :
  (forall x y, x ∈ l1 -> y ∈ l1 -> key x = key y -> x = y) ->
  l1 ≡ₚ l2 -> sorted key l1 = sorted key l2.
Proof.
  intros Hinj Hperm.
  apply (StronglySorted_unique_strong (key_le key)).
  - intros x y Hx Hy Hxy Hyx. apply Hinj.
    + by rewrite <- (sorted_perm l1).
    + by rewrite Hperm, <- (sorted_perm l2).
    + by apply key_le_antisym.
  - apply sorted_StronglySorted.
  - apply sorted_StronglySorted.
  - by rewrite !sorted_perm.
Qed.

Lemma strictly_sorted_key_inj l x y :
  StronglySorted (fun a b => key_lt key a b = true) l ->
  x ∈ l -> y ∈ l -> key x = key y -> x = y.
Proof.
  assert (Hirr : forall a b, key a = key b -> key_lt key a b = true -> False).
  { intros a b Hab. unfold key_lt, String.ltb. rewrite Hab.
    destruct (String.compare (key b) (key b)) eqn:Hc; try done.
    pose proof (String.compare_antisym (key b) (key b)) as Ha.
    rewrite Hc in Ha. done. }
  induction 1 as [|a l Hl IH Ha]; intros Hx Hy Hk.
  - by apply elem_of_nil in Hx.
  - rewrite Forall_forall in Ha.
    apply elem_of_cons in Hx as [->|Hx]; apply elem_of_cons in Hy as [->|Hy];
      try done.
    + exfalso. eapply Hirr; [exact Hk|]. by apply Ha.
    + exfalso. eapply Hirr; [symmetry; exact Hk|]. by apply Ha.
    + by apply IH.
Qed.

Lemma strictly_sorted_le l :
  StronglySorted (fun a b => key_lt key a b = true) l ->
  StronglySorted (key_le key) l.
Proof.
  induction 1 as [|a l Hl IH Ha]; constructor; [done|].
  eapply Forall_impl; [exact Ha|]. intros b Hb. by apply key_lt_true.
Qed.

Lemma strictly_sorted_NoDup l :
  StronglySorted (fun a b => key_lt key a b = true) l -> NoDup l.
Proof.
  induction 1 as [|a l Hl IH Ha]; constructor; [|done].
  intros Hin. rewrite Forall_forall in Ha. specialize (Ha _ Hin).
  unfold key_lt, String.ltb in Ha.
  destruct (String.compare (key a) (key a)) eqn:Hc; try done.
  pose proof (String.compare_antisym (key a) (key a)) as Hanti.
  rewrite Hc in Hanti. done.
Qed.
End SortedFacts.

(** ** The file calls *)

Section Runs.
Context `{Platform}.

Lemma logged_logged evs1 evs2 w :
  logged evs2 (logged evs1 w) = logged (evs1 ++ evs2) w.
Proof. unfold logged. simpl. by rewrite <- app_assoc. Qed.

Lemma logged_nil w : logged [] w = w.
Proof. destruct w. unfold logged. simpl. by rewrite app_nil_r. Qed.

Lemma can_read_logged evs w path : can_read (logged evs w) path = can_read w path.
Proof. done. Qed.

Lemma lines_of_logged evs w path : lines_of (logged evs w) path = lines_of w path.
Proof. done. Qed.

Lemma first_unreadable_logged evs w paths :
  first_unreadable (logged evs w) paths = first_unreadable w paths.
Proof. induction paths as [|p ps IH]; simpl; [done|]. by rewrite IH. Qed.

Lemma attempted_logged evs w paths :
  attempted (logged evs w) paths = attempted w paths.
Proof. induction paths as [|p ps IH]; simpl; [done|]. by rewrite IH. Qed.

Lemma open_read_run path w :
  open_read path w =
    (if can_read w path
     then Ok (from_option content EmptyString (files w !! path))
     else Raise OSError,
     logged [OpenRead path] w).
Proof.
  unfold open_read, bind, log_event, can_read, logged. simpl.
  destruct (files w !! path) as [f|]; simpl; [|done].
  by destruct (readable f).
Qed.

Lemma path_exists_run path w :
  path_exists path w =
    (Ok (bool_decide (is_Some (files w !! path))), logged [PathExists path] w).
Proof. done. Qed.

Lemma open_write_run path data w :
  open_write path data w = store_file path data (logged [OpenWrite path] w).
Proof. done. Qed.

(** *** The language file store *)

Lemma get_path_run self lang w :
  get_path self lang w =
    match lang_path self lang with
    | Some path => (Ok path, w)
    | None => (Raise (unknown_language lang), w)
    end.
Proof.
  unfold get_path, lang_path.
  by destruct (dict_get lang (path_mapping self)).
Qed.

Lemma read_language_file_run self lang w :
  read_language_file self lang w =
    match dict_get lang (path_mapping self) with
    | None => (Raise (unknown_language lang), w)
    | Some stem =>
        let path := joinpath (root_path self) (stem ++ ".txt") in
        (if can_read w path then Ok (lines_of w path) else Raise (read_failure stem),
         logged [OpenRead path] w)
    end.
Proof.
  unfold read_language_file, try_except, bind at 1, get_path, dict_subscript.
  destruct (dict_get lang (path_mapping self)) as [stem|] eqn:Hget; [|done].
  unfold ret at 1. unfold bind. rewrite open_read_run.
  unfold lines_of, can_read.
  destruct (files w !! _) as [f|]; simpl; [|done].
  by destruct (readable f).
Qed.

Lemma write_to_language_file_run self lang words w :
  write_to_language_file self lang words w =
    match dict_get lang (path_mapping self) with
    | None => (Raise (unknown_language lang), w)
    | Some stem =>
        let path := joinpath (root_path self) (stem ++ ".txt") in
        match store_file path (writelines words) (logged [OpenWrite path] w) with
        | (Ok _, w') => (Ok tt, w')
        | (Raise _, w') => (Raise (write_failure stem), w')
        end
    end.
Proof.
  unfold write_to_language_file, try_except, bind at 1, get_path, dict_subscript.
  destruct (dict_get lang (path_mapping self)) as [stem|] eqn:Hget; [|done].
  unfold ret at 1. rewrite open_write_run.
  set (w1 := logged _ w). unfold store_file.
  repeat case_bool_decide; simpl; done.
Qed.

(** *** The sorter *)

Lemma sort_word_list_run lang words w :
  sort_word_list lang words w = (sort_answer lang words, w).
Proof.
  unfold sort_word_list, sort_answer, bind, try_except, import_icu.
  destruct icu as [m|]; [|done]. unfold ret at 1.
  destruct (getAvailableLocales m !! lang) as [locale|]; done.
Qed.

(** *** The merge *)

Lemma add_words_spec bag lines : add_words bag lines = bag ∪ word_set lines.
Proof.
  unfold add_words, word_set. revert bag.
  induction lines as [|l lines IH]; intros bag; simpl.
  - set_solver.
  - rewrite IH. set_solver.
Qed.

Lemma word_set_app l1 l2 : word_set (l1 ++ l2) = word_set l1 ∪ word_set l2.
Proof. unfold word_set. rewrite fmap_app. set_solver. Qed.

Lemma merge_new_paths_run new_paths bag w :
  merge_new_paths new_paths bag w =
    match first_unreadable w new_paths with
    | None =>
        (Ok (bag ∪ word_set (mjoin (lines_of w <$> new_paths))),
         logged (OpenRead <$> new_paths) w)
    | Some bad =>
        (Raise (extra_file_failure bad),
         logged (OpenRead <$> attempted w new_paths) w)
    end.
Proof.
  revert bag w. induction new_paths as [|p ps IH]; intros bag w; simpl.
  - rewrite logged_nil. unfold ret. do 2 f_equal. unfold word_set. set_solver.
  - unfold bind at 1, try_except, bind at 1. rewrite open_read_run.
    destruct (can_read w p) eqn:Hp; [|done].
    unfold ret at 1. rewrite IH.
    rewrite first_unreadable_logged, attempted_logged.
    destruct (first_unreadable w ps) as [bad|].
    + by rewrite logged_logged.
    + rewrite logged_logged. simpl. do 2 f_equal.
      rewrite add_words_spec, word_set_app.
      assert (lines_of w p = readlines (from_option content EmptyString (files w !! p))) as ->.
      { unfold lines_of, can_read in *. by destruct (files w !! p). }
      change (lines_of (logged [OpenRead p] w)) with (lines_of w).
      set_solver.
Qed.
End Runs.

Section Merge.
Context `{Platform}.

Lemma store_file_cases path data w :
  let old := files w !! path in
  let room := free_space w + from_option (fun f => String.length (content f)) 0 old in
  let rd := from_option readable true old in
  (writable <$> old = Some false /\ store_file path data w = (Raise OSError, w))
  \/ (String.length data <= room /\
      store_file path data w =
        (Ok tt, World (<[path := File data rd true]> (files w))
                      (room - String.length data) (log w)))
  \/ (room < String.length data /\
      store_file path data w =
        (Raise OSError,
         World (<[path := File (take_string room data) rd true]> (files w)) 0 (log w))).
Proof.
  intros old room rd. unfold store_file. fold old. fold room. fold rd.
  repeat case_bool_decide; [left|right; left|right; right]; split; try done; lia.
Qed.

Lemma merge_language_files_run self lang new_paths w :
  merge_language_files self lang new_paths w =
    match dict_get lang (path_mapping self) with
    | None => (Raise (unknown_language lang), w)
    | Some stem =>
        let path := joinpath (root_path self) (stem ++ ".txt") in
        if can_read w path then
          match first_unreadable w new_paths with
          | Some bad =>
              (Raise (extra_file_failure bad),
               logged (OpenRead path :: (OpenRead <$> attempted w new_paths)) w)
          | None =>
              let w1 := logged (OpenRead path :: (OpenRead <$> new_paths)) w in
              match sort_answer lang
                      (set_iter (word_set (input_lines w path new_paths))) with
              | Raise e => (Raise e, w1)
              | Ok words =>
                  match store_file path (writelines words)
                          (logged [OpenWrite path] w1) with
                  | (Ok _, w') => (Ok tt, w')
                  | (Raise _, w') => (Raise (write_failure stem), w')
                  end
              end
          end
        else (Raise (read_failure stem), logged [OpenRead path] w)
    end.
Proof.
  unfold merge_language_files. unfold bind at 1.
  rewrite read_language_file_run.
  destruct (dict_get lang (path_mapping self)) as [stem|] eqn:Hget; [|done].
  cbv zeta. set (path := joinpath _ _).
  destruct (can_read w path) eqn:Hread; [|done].
  unfold bind at 1. rewrite merge_new_paths_run.
  rewrite first_unreadable_logged, attempted_logged.
  destruct (first_unreadable w new_paths) as [bad|] eqn:Hbad.
  { by rewrite logged_logged. }
  rewrite logged_logged. simpl app.
  change (lines_of (logged [OpenRead path] w)) with (lines_of w).
  assert (add_words ∅ (lines_of w path) ∪ word_set (mjoin (lines_of w <$> new_paths))
          = word_set (input_lines w path new_paths)) as ->.
  { unfold input_lines. rewrite add_words_spec, word_set_app. set_solver. }
  unfold bind. rewrite sort_word_list_run.
  destruct (sort_answer lang _) as [words|e]; [|done].
  rewrite write_to_language_file_run, Hget. done.
Qed.
End Merge.

Section MergeOutcomes.
Context `{Platform}.

Lemma first_unreadable_None w paths :
  first_unreadable w paths = None <-> Forall (fun p => can_read w p = true) paths.
Proof.
  induction paths as [|p ps IH]; simpl.
  - split; [constructor|done].
  - destruct (can_read w p) eqn:Hp.
    + rewrite IH. split; [by constructor|]. by inversion 1.
    + split; [done|]. inversion 1; congruence.
Qed.

Lemma first_unreadable_Some w paths bad :
  first_unreadable w paths = Some bad ->
  bad ∈ paths /\ can_read w bad = false /\
  exists before after,
    paths = before ++ bad :: after /\
    Forall (fun p => can_read w p = true) before /\
    attempted w paths = before ++ [bad].
Proof.
  induction paths as [|p ps IH]; simpl; [done|].
  destruct (can_read w p) eqn:Hp.
  - intros Hbad. destruct (IH Hbad) as (Hin & Hno & before & after & -> & Hall & Hatt).
    split; [by right|]. split; [done|].
    exists (p :: before), after. rewrite Hatt. by repeat split; try constructor.
  - intros [= <-]. split; [by left|]. split; [done|].
    by exists [], ps.
Qed.

(** C1 (as amended). A merge ends in one of three ways. It completes: the
    language file and every new file were read, the words sorted, and the
    language file now holds the sorted words. Or it fails and no file has
    changed. Or the device ran out of room during the write itself: the
    failure is the write failure, and the language file, truncated on
    opening, holds only the leading part of the new text that fitted. *)
Theorem merge_completes_or_fails self lang new_paths w :
  match merge_language_files self lang new_paths w with
  | (Ok _, w') =>
      exists path words,
        lang_path self lang = Some path /\
        can_read w path = true /\
        Forall (fun p => can_read w p = true) new_paths /\
        sort_answer lang (set_iter (word_set (input_lines w path new_paths)))
          = Ok words /\
        content <$> files w' !! path = Some (writelines words) /\
        (forall q, q ≠ path -> files w' !! q = files w !! q) /\
        log w' = log w ++ OpenRead path :: (OpenRead <$> new_paths) ++ [OpenWrite path]
  | (Raise e, w') =>
      files w' = files w \/
      exists path stem words room,
        e = write_failure stem /\
        lang_path self lang = Some path /\
        sort_answer lang (set_iter (word_set (input_lines w path new_paths)))
          = Ok words /\
        room = free_space w
               + from_option (fun f => String.length (content f)) 0 (files w !! path) /\
        room < String.length (writelines words) /\
        content <$> files w' !! path = Some (take_string room (writelines words)) /\
        (forall q, q ≠ path -> files w' !! q = files w !! q)
  end.
Proof.
  rewrite merge_language_files_run. unfold lang_path.
  destruct (dict_get lang (path_mapping self)) as [stem|]; [|by left].
  cbv zeta. set (path := joinpath _ _).
  destruct (can_read w path) eqn:Hread; [|by left].
  destruct (first_unreadable w new_paths) as [bad|] eqn:Hbad; [by left|].
  apply first_unreadable_None in Hbad.
  destruct (sort_answer lang _) as [words|e] eqn:Hsort; [|by left].
  set (w1 := logged [OpenWrite path] _).
  destruct (store_file_cases path (writelines words) w1)
    as [[_ ->]|[[Hfits ->]|[Hfull ->]]].
  - by left.
  - exists path, words. simpl. rewrite lookup_insert_eq.
    repeat split; try done.
    + intros q Hq. by rewrite lookup_insert_ne.
    + by rewrite <- app_assoc.
  - right. exists path, stem, words. eexists. simpl. rewrite lookup_insert_eq.
    do 3 (split; [done|]). split; [reflexivity|].
    repeat split; try done.
    intros q Hq. by rewrite lookup_insert_ne.
Qed.
End MergeOutcomes.

Section FullDevice.
#[local] Existing Instance Demo.demo.

(** C1 (counterexample). On a full device, merging a file with the word
  [a] into a list holding the word [b] fails in the write: the failure is
  the write failure, and the list, which held [b], now holds [a] alone. *)
Lemma write_failure_loses_content :
let out := merge_language_files Demo.english "en" ["/tmp/new.txt"] Demo.full_disk in
out.1 = Raise (LanguageDataError "Could not open language file english for writing") /\
content <$> files Demo.full_disk !! "/srv/english.txt" = Some (Demo.line "b") /\
content <$> files out.2 !! "/srv/english.txt" = Some (Demo.line "a") /\
files out.2 !! "/srv/english.txt" ≠ files Demo.full_disk !! "/srv/english.txt".
Proof. vm_compute. repeat split; done. Qed.
End FullDevice.

Section Dedup.
Context `{Platform}.

Lemma sort_answer_ok lang l words :
  sort_answer lang l = Ok words ->
  exists m locale,
    icu = Some m /\ getAvailableLocales m !! lang = Some locale /\
    words = sorted (sort_key m locale IDENTICAL) l.
Proof.
  unfold sort_answer. destruct icu as [m|]; [|done].
  destruct (getAvailableLocales m !! lang) as [locale|] eqn:Hlocale; [|done].
  intros [= <-]. by exists m, locale.
Qed.

Lemma sort_answer_perm lang l words : sort_answer lang l = Ok words -> words ≡ₚ l.
Proof.
  intros (m & locale & _ & _ & ->)%sort_answer_ok. apply sorted_perm.
Qed.

(** What a merge that returned has done. *)
Lemma merge_ok_inv self lang new_paths w w' u :
  merge_language_files self lang new_paths w = (Ok u, w') ->
  exists path words,
    lang_path self lang = Some path /\
    can_read w path = true /\
    Forall (fun p => can_read w p = true) new_paths /\
    sort_answer lang (set_iter (word_set (input_lines w path new_paths))) = Ok words /\
    files w' !! path
      = Some (File (writelines words) (from_option readable true (files w !! path)) true) /\
    (forall q, q ≠ path -> files w' !! q = files w !! q) /\
    log w' = log w ++ OpenRead path :: (OpenRead <$> new_paths) ++ [OpenWrite path].
Proof.
  rewrite merge_language_files_run. unfold lang_path.
  destruct (dict_get lang (path_mapping self)) as [stem|]; [|done].
  cbv zeta. set (path := joinpath _ _).
  destruct (can_read w path) eqn:Hread; [|done].
  destruct (first_unreadable w new_paths) as [bad|] eqn:Hbad; [done|].
  apply first_unreadable_None in Hbad.
  destruct (sort_answer lang _) as [words|e] eqn:Hsort; [|done].
  set (w1 := logged [OpenWrite path] _).
  destruct (store_file_cases path (writelines words) w1)
    as [[_ ->]|[[Hfits ->]|[Hfull ->]]]; [done| |done].
  intros [= <- <-]. exists path, words. simpl. rewrite lookup_insert_eq.
  repeat split; try done.
  - intros q Hq. by rewrite lookup_insert_ne.
  - by rewrite <- app_assoc.
Qed.

Lemma elem_of_word_set v lines :
  v ∈ word_set lines <-> exists s, s ∈ lines /\ v = normalize_NFC s.
Proof.
  unfold word_set. rewrite elem_of_list_to_set, list_elem_of_fmap. naive_solver.
Qed.

Lemma set_iter_NoDup s : NoDup (set_iter s).
Proof. rewrite set_iter_perm. apply NoDup_elements. Qed.

Lemma elem_of_set_iter v s : v ∈ set_iter s <-> v ∈ s.
Proof. rewrite set_iter_perm. apply elem_of_elements. Qed.

End Dedup.


Section Atomicity.
Context `{Platform}.

Lemma first_unreadable_is_Some w paths p :
  p ∈ paths -> can_read w p = false ->
  exists bad, first_unreadable w paths = Some bad.
Proof.
  intros Hin Hno.
  destruct (first_unreadable w paths) as [bad|] eqn:Hfirst; [by exists bad|].
  apply first_unreadable_None in Hfirst. rewrite Forall_forall in Hfirst.
  specialize (Hfirst _ Hin). congruence.
Qed.

Lemma open_read_outcome path w :
  (open_read path w).1
  = if can_read w path
    then Ok (from_option content EmptyString (files w !! path))
    else Raise OSError.
Proof. by rewrite open_read_run. Qed.

Lemma open_read_succeeds path w text :
  (open_read path w).1 = Ok text ->
  can_read w path = true /\ text = from_option content EmptyString (files w !! path).
Proof.
  rewrite open_read_outcome. destruct (can_read w path); [|done].
  by intros [= <-].
Qed.

Lemma open_read_raises path w e :
  (open_read path w).1 = Raise e -> can_read w path = false /\ e = OSError.
Proof.
  rewrite open_read_outcome. destruct (can_read w path); [done|].
  by intros [= <-].
Qed.


Lemma first_unreadable_at w before bad after :
  Forall (fun q => exists text, (open_read q w).1 = Ok text) before ->
  (open_read bad w).1 = Raise OSError ->
  first_unreadable w (before ++ bad :: after) = Some bad.
Proof.
  intros Hbefore [Hbad _]%open_read_raises.
  induction Hbefore as [|q before [text [Hq _]%open_read_succeeds] _ IH]; simpl.
  - by rewrite Hbad.
  - by rewrite Hq.
Qed.

(** C3 (as amended). When reading one of the new files does not succeed,
    the merge fails, it has only opened files for reading, and every file
    and the free space are as they were. When moreover the file of the
    language was read, the new files before some path were read, and the
    operating system refuses to open or read that path, the failure is the
    fatal exit whose message names that path. *)
Theorem merge_unreadable_extra_aborts self lang new_paths w p :
  p ∈ new_paths ->
  ~ (exists text, (open_read p w).1 = Ok text) ->
  let out := merge_language_files self lang new_paths w in
  (exists e, out.1 = Raise e) /\
  files out.2 = files w /\
  free_space out.2 = free_space w /\
  (exists evs, log out.2 = log w ++ evs /\
               Forall (fun ev => exists q, ev = OpenRead q) evs) /\
  (forall lines before bad after,
     (read_language_file self lang w).1 = Ok lines ->
     new_paths = before ++ bad :: after ->
     Forall (fun q => exists text, (open_read q w).1 = Ok text) before ->
     (open_read bad w).1 = Raise OSError ->
     out.1 = Raise (SystemExit ("Could not read " ++ bad ++ ". Aborting."))).
Proof.
  intros Hin Hfails out. subst out.
  assert (can_read w p = false) as Hno.
  { destruct (can_read w p) eqn:Hp; [|done]. exfalso. apply Hfails.
    eexists. by rewrite open_read_outcome, Hp. }
  destruct (first_unreadable_is_Some _ _ _ Hin Hno) as [first Hfirst].
  assert (forall qs, Forall (fun ev => exists q, ev = OpenRead q) (OpenRead <$> qs))
    as Hreads.
  { intros qs. apply Forall_fmap, Forall_forall. intros q _. by exists q. }
  rewrite merge_language_files_run.
  destruct (dict_get lang (path_mapping self)) as [stem|] eqn:Hstem; simpl.
  2:{ split; [by eexists|]. do 2 (split; [done|]).
      split; [exists []; by rewrite app_nil_r|].
      intros lines before bad after Hlist.
      by rewrite read_language_file_run, Hstem in Hlist. }
  set (path := joinpath _ _).
  destruct (can_read w path) eqn:Hread; simpl.
  - rewrite Hfirst. simpl. split; [by eexists|]. do 2 (split; [done|]).
    split.
    + eexists. split; [done|]. constructor; [by eexists|]. apply Hreads.
    + intros lines before bad after _ -> Hbefore Hbad.
      rewrite (first_unreadable_at _ _ _ after Hbefore Hbad) in Hfirst.
      by injection Hfirst as <-.
  - split; [by eexists|]. do 2 (split; [done|]).
    split.
    + eexists. split; [done|]. constructor; [by eexists|]. constructor.
    + intros lines before bad after Hlist.
      rewrite read_language_file_run, Hstem in Hlist. simpl in Hlist.
      fold path in Hlist. by rewrite Hread in Hlist.
Qed.
End Atomicity.

Section MissingNewFile.
#[local] Existing Instance Demo.demo.

(** C3 at work: the new file is missing while the English list is
    readable; the merge exits naming the new file. *)
Lemma merge_unreadable_extra_aborts_witness :
  let out := merge_language_files Demo.english "en" ["/tmp/new.txt"; "/tmp/missing.txt"]
               Demo.full_disk in
  (exists e, out.1 = Raise e) /\
  files out.2 = files Demo.full_disk /\
  free_space out.2 = free_space Demo.full_disk /\
  (exists evs, log out.2 = log Demo.full_disk ++ evs /\
               Forall (fun ev => exists q, ev = OpenRead q) evs) /\
  out.1 = Raise (SystemExit "Could not read /tmp/missing.txt. Aborting.").
Proof.
  destruct (merge_unreadable_extra_aborts Demo.english "en"
              ["/tmp/new.txt"; "/tmp/missing.txt"] Demo.full_disk "/tmp/missing.txt")
    as (Hraise & Hfiles & Hfree & Hlog & Hnames).
  - by_computation.
  - intros [text Htext]. vm_compute in Htext. discriminate Htext.
  - do 4 (split; [assumption|]).
    apply (Hnames [Demo.line "b"] ["/tmp/new.txt"] "/tmp/missing.txt" []).
    + vm_compute. reflexivity.
    + reflexivity.
    + constructor; [|constructor]. eexists. vm_compute. reflexivity.
    + vm_compute. reflexivity.
Defined.

(** C3 (counterexample). The new file is missing, but the English list
    itself cannot be read: the failure is the read failure of the list, and
    its message does not name the new file. *)
Lemma unreadable_list_hides_extra_failure :
  let out := merge_language_files Demo.english "en" ["/tmp/missing.txt"]
               Demo.locked_list in
  can_read Demo.locked_list "/tmp/missing.txt" = false /\
  out.1 = Raise (LanguageDataError "Could not read language file english") /\
  (forall e, out.1 = Raise e -> names e "/tmp/missing.txt" = false).
Proof.
  vm_compute. repeat split. by intros e [= <-].
Qed.
End MissingNewFile.

(** ** The registry *)

Section Registry.
Context `{Platform}.

Lemma first_invalid_logged evs w root d :
  first_invalid (logged evs w) root d = first_invalid w root d.
Proof.
  induction d as [|kv d IH]; simpl; [done|].
  change (entry_valid (logged evs w) root kv) with (entry_valid w root kv).
  by rewrite IH.
Qed.

Lemma checked_logged evs w root d :
  checked (logged evs w) root d = checked w root d.
Proof.
  induction d as [|kv d IH]; simpl; [done|].
  change (entry_valid (logged evs w) root kv) with (entry_valid w root kv).
  by rewrite IH.
Qed.

Lemma check_entries_run root index_path d w :
  for_each d (check_entry root index_path) w =
    (match first_invalid w root d with
     | None => Ok tt
     | Some key => Raise (registry_entry_invalid index_path key)
     end,
     logged (PathExists <$> checked w root d) w).
Proof.
  revert w. induction d as [|[key value] d IH]; intros w; simpl.
  - by rewrite logged_nil.
  - unfold bind at 1, check_entry at 1, entry_valid, entry_path. simpl.
    destruct value; simpl; try by rewrite logged_nil.
    rewrite (bind_ok _ _ _ _ _ (path_exists_run _ w)).
    case_bool_decide; simpl.
    + by rewrite IH, logged_logged, first_invalid_logged, checked_logged.
    + done.
Qed.

Lemma first_invalid_None w root d :
  first_invalid w root d = None <-> forallb (entry_valid w root) d = true.
Proof.
  induction d as [|kv d IH]; simpl; [done|].
  destruct (entry_valid w root kv); simpl; [done|]. split; done.
Qed.

Lemma enter_run self w :
  __enter__ self w =
    let index_path := index_path_of self in
    let w1 := logged [OpenRead index_path] w in
    if can_read w index_path then
      match registry_document self w with
      | None => (Raise (registry_unparsable index_path), w1)
      | Some (JObject members) =>
          let d := dict_of_pairs members in
          (match first_invalid w (index_root self) d with
           | None => Ok (Payload (index_root self) (str_values d))
           | Some key => Raise (registry_entry_invalid index_path key)
           end,
           logged (OpenRead index_path :: (PathExists <$> checked w (index_root self) d)) w)
      | Some _ => (Raise (registry_not_a_dict index_path), w1)
      end
    else (Raise (registry_not_found index_path), w1).
Proof.
  unfold __enter__, registry_document. fold (index_path_of self). cbv zeta.
  unfold bind at 1, try_except, bind at 1. rewrite open_read_run.
  destruct (can_read w (index_path_of self)) eqn:Hread; [|done].
  unfold json_load.
  destruct (json_parse _) as [doc|]; [|done].
  unfold ret at 1.
  destruct doc; try done.
  unfold bind at 1. rewrite check_entries_run.
  rewrite first_invalid_logged, checked_logged, logged_logged.
  by destruct (first_invalid w (index_root self) (dict_of_pairs members)).
Qed.

Lemma with_run {A} self (body : LanguageDataIndexPayload -> IO A) w :
  with_ self body w = bind (__enter__ self) body w.
Proof.
  unfold with_, bind, __exit__, ret.
  destruct (__enter__ self w) as [[lang_index|e] w1]; [|done].
  by destruct (body lang_index w1).
Qed.

(** When every entry passes, the payload has the entries of the document,
    in their order, each pointing to the file whose existence was asked. *)
Lemma str_values_valid w root d :
  forallb (entry_valid w root) d = true ->
  Forall2 (fun kv entry =>
             kv.1 = entry.1 /\ kv.2 = JString entry.2 /\
             is_Some (files w !! joinpath root (entry.2 ++ ".txt")))
          d (str_values d) /\
  checked w root d = (fun entry => joinpath root (entry.2 ++ ".txt")) <$> str_values d.
Proof.
  induction d as [|[key value] d IH]; simpl.
  - intros _. split; [constructor|done].
  - intros [Hkv Hd]%andb_true_iff. destruct (IH Hd) as [IH1 IH2].
    unfold str_values. simpl. rewrite Hkv.
    unfold entry_valid, entry_path in *. simpl in *.
    destruct value; try done. simpl.
    apply bool_decide_eq_true in Hkv.
    split; [by constructor|]. by rewrite IH2.
Qed.
End Registry.

Section RegistryLoad.
Context `{Platform}.

(** C4. When [__enter__] returns a payload, the registry document was read and
    parsed as an object, and every entry of the mapping returned is an entry
    of the document whose value is a string and whose file, the value with
    [.txt] under the root, existed; the existence of each was asked, in
    order, before returning, and nothing else was done to the files. In
    every other case [__enter__] raises the module's error and returns no
    mapping. *)
Theorem enter_returns_checked_registry self w :
  match __enter__ self w with
  | (Ok payload, w') =>
      registry_valid self w = true /\
      exists members,
        can_read w (index_path_of self) = true /\
        registry_document self w = Some (JObject members) /\
        root_path payload = index_root self /\
        Forall2 (fun kv entry =>
                   kv.1 = entry.1 /\ kv.2 = JString entry.2 /\
                   is_Some (files w !! joinpath (index_root self) (entry.2 ++ ".txt")))
                (dict_of_pairs members) (path_mapping payload) /\
        files w' = files w /\
        log w' = log w ++ OpenRead (index_path_of self)
                   :: (PathExists <$>
                         ((fun entry => joinpath (index_root self) (entry.2 ++ ".txt"))
                            <$> path_mapping payload))
  | (Raise e, w') =>
      registry_valid self w = false /\
      files w' = files w /\
      exists msg, e = LanguageDataError msg
  end.
Proof.
  rewrite enter_run. cbv zeta. unfold registry_valid.
  destruct (can_read w (index_path_of self)) eqn:Hread.
  2:{ unfold registry_document. rewrite Hread. repeat split. by eexists. }
  destruct (registry_document self w) as [doc|] eqn:Hdoc.
  2:{ repeat split. by eexists. }
  destruct doc; try (repeat split; by eexists).
  destruct (first_invalid w (index_root self) (dict_of_pairs members)) as [key|] eqn:Hfirst.
  - split.
    + apply not_true_is_false. intros Hall%first_invalid_None. congruence.
    + split; [done|]. by eexists.
  - apply first_invalid_None in Hfirst. split; [done|].
    destruct (str_values_valid _ _ _ Hfirst) as [Hentries Hchecked].
    exists members. simpl. by rewrite Hchecked.
Qed.
End RegistryLoad.

(** ** The sorter *)

Section Sorter.
Context `{Platform}.

(** C5. [sort_word_list] touches nothing. Without the [icu] module it
    raises the error that PyICU is needed, whatever the language; with the
    module but no locale for the language it raises the error that no
    locale is available. It returns a list only when both are there, and
    the list is then the words in the order of the sort keys of that
    locale's collator at strength [IDENTICAL]. *)
Theorem sort_word_list_never_falls_back lang words w :
  (sort_word_list lang words w).2 = w /\
  (icu = None ->
   (sort_word_list lang words w).1 = Raise collation_unavailable) /\
  (forall m, icu = Some m -> getAvailableLocales m !! lang = None ->
   (sort_word_list lang words w).1 = Raise (unsupported_locale lang)) /\
  (forall answer, (sort_word_list lang words w).1 = Ok answer ->
   exists m locale,
     icu = Some m /\
     getAvailableLocales m !! lang = Some locale /\
     answer = sorted (getSortKey m (Collator locale IDENTICAL)) words /\
     StronglySorted (key_le (sort_key m locale IDENTICAL)) answer /\
     answer ≡ₚ words).
Proof.
  rewrite sort_word_list_run. simpl. split; [done|].
  unfold sort_answer. split; [by intros ->|]. split.
  - intros m -> Hnone. by rewrite Hnone.
  - intros answer Hanswer.
    destruct icu as [m|]; [|done].
    destruct (getAvailableLocales m !! lang) as [locale|] eqn:Hlocale; [|done].
    injection Hanswer as <-. exists m, locale.
    repeat split; try done.
    + apply sorted_StronglySorted.
    + apply sorted_perm.
Qed.
End Sorter.

(** ** Unknown languages *)

Section UnknownLanguage.
Context `{Platform}.

(** C6. For a language code that is not a key of the registry mapping,
    resolving the path, reading, writing, merging and sorting all raise the
    error for an unrecognised language, and leave the world as it was: no
    system call was made. *)
Theorem unknown_language_rejected self lang w :
  dict_get lang (path_mapping self) = None ->
  get_path self lang w = (Raise (unknown_language lang), w) /\
  read_language_file self lang w = (Raise (unknown_language lang), w) /\
  (forall words,
     write_to_language_file self lang words w = (Raise (unknown_language lang), w)) /\
  (forall new_paths,
     merge_language_files self lang new_paths w = (Raise (unknown_language lang), w)) /\
  merge_language_files self lang [] w = (Raise (unknown_language lang), w).
Proof.
  intros Hnone.
  split. { rewrite get_path_run. unfold lang_path. by rewrite Hnone. }
  split. { by rewrite read_language_file_run, Hnone. }
  split. { intros words. by rewrite write_to_language_file_run, Hnone. }
  split. { intros new_paths. by rewrite merge_language_files_run, Hnone. }
  by rewrite merge_language_files_run, Hnone.
Qed.
End UnknownLanguage.

Section UnregisteredCode.
#[local] Existing Instance Demo.demo.

(** C6 at work: German is not in the registry that has English only. *)
Lemma unknown_language_rejected_witness :
  get_path Demo.english "de" Demo.full_disk
    = (Raise (unknown_language "de"), Demo.full_disk) /\
  read_language_file Demo.english "de" Demo.full_disk
    = (Raise (unknown_language "de"), Demo.full_disk) /\
  (forall words,
     write_to_language_file Demo.english "de" words Demo.full_disk
       = (Raise (unknown_language "de"), Demo.full_disk)) /\
  (forall new_paths,
     merge_language_files Demo.english "de" new_paths Demo.full_disk
       = (Raise (unknown_language "de"), Demo.full_disk)) /\
  merge_language_files Demo.english "de" [] Demo.full_disk
    = (Raise (unknown_language "de"), Demo.full_disk).
Proof.
  apply (unknown_language_rejected Demo.english "de" Demo.full_disk).
  reflexivity.
Defined.
End UnregisteredCode.

(** ** Idempotence and determinism *)

Section Idempotence.
Context `{Platform}.

Lemma fmap_fixed (f : string -> string) (ls : list string) :
  Forall (fun l => f l = l) ls -> f <$> ls = ls.
Proof.
  induction 1 as [|l ls Hl _ IH]; [done|]. by rewrite fmap_cons, Hl, IH.
Qed.

(** C7 (as amended). Sorting a list leaves the file and the device as they
    were when the text of the file has no carriage return and its lines are
    normalised already and strictly increasing in sort key, which makes
    them sorted and without duplicates. And sorting two enumerations of the
    same words gives the same answer when the sort key tells the words
    apart. *)
Theorem sort_is_idempotent_and_deterministic :
  (forall self lang w path f m locale,
     lang_path self lang = Some path ->
     files w !! path = Some f ->
     readable f = true ->
     writable f = true ->
     universal_newlines (content f) = content f ->
     icu = Some m ->
     getAvailableLocales m !! lang = Some locale ->
     Forall (fun l => normalize_NFC l = l) (readlines (content f)) ->
     StronglySorted (fun a b => key_lt (sort_key m locale IDENTICAL) a b = true)
                    (readlines (content f)) ->
     exists w',
       merge_language_files self lang [] w = (Ok tt, w') /\
       files w' = files w /\
       free_space w' = free_space w) /\
  (forall lang words1 words2 w,
     words1 ≡ₚ words2 ->
     (forall m locale x y,
        icu = Some m -> getAvailableLocales m !! lang = Some locale ->
        x ∈ words1 -> y ∈ words1 ->
        sort_key m locale IDENTICAL x = sort_key m locale IDENTICAL y -> x = y) ->
     sort_word_list lang words1 w = sort_word_list lang words2 w).
Proof.
  split.
  - intros self lang w path f m locale Hpath Hfile Hrd Hwr Hnl Hicu Hloc Hnfc Hsorted.
    rewrite merge_language_files_run. unfold lang_path in Hpath.
    destruct (dict_get lang (path_mapping self)) as [stem|]; [|done].
    injection Hpath as Hpath. cbv zeta. rewrite Hpath.
    assert (can_read w path = true) as ->.
    { unfold can_read. by rewrite Hfile. }
    simpl first_unreadable. cbv iota.
    set (lines := readlines (content f)) in *.
    assert (input_lines w path [] = lines) as ->.
    { unfold input_lines, lines_of. rewrite Hfile. simpl. by rewrite app_nil_r. }
    assert (word_set lines = list_to_set lines) as Hset.
    { unfold word_set. f_equal. by apply fmap_fixed. }
    assert (set_iter (word_set lines) ≡ₚ lines) as Hperm.
    { rewrite set_iter_perm, Hset. apply elements_list_to_set.
      by eapply strictly_sorted_NoDup. }
    assert (sort_answer lang (set_iter (word_set lines)) = Ok lines) as ->.
    { unfold sort_answer. rewrite Hicu, Hloc. f_equal.
      trans (sorted (sort_key m locale IDENTICAL) lines).
      - apply sorted_unique; [|done].
        intros x y Hx Hy. rewrite Hperm in Hx, Hy.
        by eapply strictly_sorted_key_inj.
      - by apply sorted_fixed, strictly_sorted_le. }
    unfold lines at 1. rewrite writelines_readlines, Hnl.
    unfold store_file. simpl. rewrite Hfile. simpl. rewrite Hwr.
    rewrite bool_decide_eq_false_2 by done.
    rewrite bool_decide_eq_true_2 by lia.
    eexists. split; [done|]. simpl. split.
    + apply insert_id. rewrite Hfile. destruct f. simpl in *. by subst.
    + lia.
  - intros lang words1 words2 w Hperm Hinj.
    rewrite !sort_word_list_run. f_equal. unfold sort_answer.
    destruct icu as [m|] eqn:Hicu; [|done].
    destruct (getAvailableLocales m !! lang) as [locale|] eqn:Hloc; [|done].
    f_equal. apply sorted_unique; [|done].
    intros x y. by apply Hinj.
Qed.
End Idempotence.

Section SortedListRuns.
#[local] Existing Instance Demo.demo.

(** C7 at work: a list of two words in order is written back as it is, and
    the two words sort alike whichever comes first. *)
Lemma sort_is_idempotent_and_deterministic_witness :
  (exists w',
     merge_language_files Demo.english "en" [] Demo.sorted_list = (Ok tt, w') /\
     files w' = files Demo.sorted_list /\
     free_space w' = free_space Demo.sorted_list) /\
  sort_word_list "en" [Demo.line "b"; Demo.line "a"] Demo.sorted_list
    = sort_word_list "en" [Demo.line "a"; Demo.line "b"] Demo.sorted_list.
Proof.
  split.
  - apply (proj1 sort_is_idempotent_and_deterministic
             Demo.english "en" Demo.sorted_list "/srv/english.txt"
             (Demo.plain (Demo.line "a" ++ Demo.line "b")) Demo.demo_icu "en").
    + reflexivity.
    + vm_compute. reflexivity.
    + reflexivity.
    + reflexivity.
    + vm_compute. reflexivity.
    + reflexivity.
    + vm_compute. reflexivity.
    + by_computation.
    + by_computation.
  - apply (proj2 sort_is_idempotent_and_deterministic "en").
    + apply Permutation_swap.
    + intros m locale x y [= <-] _ _ _ Hkey. exact Hkey.
Defined.

(** C7 (counterexample). A list of one word is sorted and has no duplicate;
    the word being spelt decomposed, sorting the list replaces it by its
    composed spelling, and the file is not what it was. *)
Lemma sorted_list_is_rewritten_normalised :
  let path := "/srv/english.txt" in
  let key := sort_key Demo.demo_icu "en" IDENTICAL in
  let out := merge_language_files Demo.english "en" [] Demo.decomposed_list in
  lines_of Demo.decomposed_list path = [Demo.line Demo.cafe_decomposed] /\
  StronglySorted (fun a b => key_lt key a b = true) (lines_of Demo.decomposed_list path) /\
  NoDup (normalize_NFC <$> lines_of Demo.decomposed_list path) /\
  out.1 = Ok tt /\
  content <$> files Demo.decomposed_list !! path = Some (Demo.line Demo.cafe_decomposed) /\
  content <$> files out.2 !! path = Some (Demo.line Demo.cafe_composed) /\
  files out.2 !! path ≠ files Demo.decomposed_list !! path.
Proof.
  cbv zeta.
  split; [by vm_compute|]. split; [by_computation|]. split; [by_computation|].
  vm_compute. repeat split; done.
Qed.
End SortedListRuns.

(** ** Lines and their terminators *)

(** C8. The lines read keep their terminators, and writing lines puts them
    one after the other with nothing between: writing back the lines of a
    text gives the text. A merge that returns has written the lines, each
    normalised with its terminator, collected in a set and sorted by key.
    So a last line without terminator counts as a word of its own beside
    the same word with one: from the text of [a] terminated and [a]
    unterminated both are kept, and the unterminated one, sorted first,
    runs into the next; from [a] terminated and [b] unterminated, [b] is
    written last and stays unterminated. *)
Theorem lines_are_words_with_terminators :
  (forall text, writelines (readlines text) = universal_newlines text) /\
  (forall (P : Platform) self lang new_paths w,
     match merge_language_files self lang new_paths w with
     | (Ok _, w') =>
         exists path m locale,
           lang_path self lang = Some path /\
           icu = Some m /\
           getAvailableLocales m !! lang = Some locale /\
           content <$> files w' !! path
             = Some (writelines
                       (sorted (sort_key m locale IDENTICAL)
                          (set_iter
                             (list_to_set
                                (normalize_NFC <$> input_lines w path new_paths)))))
     | (Raise _, _) => True
     end) /\
  readlines (Demo.line "a" ++ "a") = [Demo.line "a"; "a"] /\
  content <$>
    files (merge_language_files (H := Demo.demo) Demo.english "en" []
             Demo.unterminated_twin).2 !! "/srv/english.txt"
    = Some (writelines ["a"; Demo.line "a"]) /\
  content <$>
    files (merge_language_files (H := Demo.demo) Demo.english "en" []
             Demo.unterminated_last).2 !! "/srv/english.txt"
    = Some (writelines [Demo.line "a"; "b"]).
Proof.
  split; [apply writelines_readlines|]. split.
  - intros P self lang new_paths w.
    destruct (merge_language_files self lang new_paths w) as [[u|e] w'] eqn:Hrun;
      [|done].
    destruct (merge_ok_inv _ _ _ _ _ _ Hrun)
      as (path & words & Hpath & _ & _ & Hsort & Hfile & _).
    destruct (sort_answer_ok _ _ _ Hsort) as (m & locale & Hicu & Hloc & ->).
    exists path, m, locale. by rewrite Hfile.
  - vm_compute. repeat split; done.
Qed.

(** ** Dictionaries *)

Section DictFacts.
Context {V : Type}.

Lemma elem_of_dict_set_keys (x k : string) (v : V) d :
  x ∈ (dict_set k v d).*1 <-> x = k \/ x ∈ d.*1.
Proof.
  induction d as [|[k' v'] d IH]; simpl.
  - rewrite list_elem_of_singleton. split; [by left|]. intros [|Hin]; [done|].
    by apply elem_of_nil in Hin.
  - destruct (decide (k' = k)) as [->|Hne]; simpl.
    + rewrite !elem_of_cons. naive_solver.
    + rewrite !elem_of_cons, IH. naive_solver.
Qed.

Lemma dict_set_NoDup (k : string) (v : V) d :
  NoDup d.*1 -> NoDup (dict_set k v d).*1.
Proof.
  induction d as [|[k' v'] d IH]; simpl.
  - intros _. apply NoDup_singleton.
  - intros [Hk' Hd]%NoDup_cons.
    destruct (decide (k' = k)) as [->|Hne]; simpl.
    + by apply NoDup_cons.
    + apply NoDup_cons. split; [|by apply IH].
      rewrite elem_of_dict_set_keys. naive_solver.
Qed.

Lemma dict_of_pairs_NoDup (pairs : list (string * V)) :
  NoDup (dict_of_pairs pairs).*1.
Proof.
  unfold dict_of_pairs.
  assert (forall acc : list (string * V), NoDup acc.*1 ->
            NoDup (fold_left (fun d kv => dict_set kv.1 kv.2 d) pairs acc).*1) as Hgen.
  { induction pairs as [|kv pairs IH]; intros acc Hacc; simpl; [done|].
    by apply IH, dict_set_NoDup. }
  apply Hgen. simpl. apply NoDup_nil_2.
Qed.
End DictFacts.

(** ** Sorting every language *)

Section SortAll.
Context `{Platform}.

Lemma enter_ok_inv self w payload w0 :
  __enter__ self w = (Ok payload, w0) ->
  exists members,
    registry_document self w = Some (JObject members) /\
    forallb (entry_valid w (index_root self)) (dict_of_pairs members) = true /\
    payload = Payload (index_root self) (str_values (dict_of_pairs members)).
Proof.
  rewrite enter_run. cbv zeta.
  destruct (can_read w (index_path_of self)); [|done].
  destruct (registry_document self w) as [doc|]; [|done].
  destruct doc; try done.
  destruct (first_invalid w (index_root self) (dict_of_pairs members)) as [key|] eqn:Hfirst;
    [done|].
  intros [= <- <-]. exists members. by apply first_invalid_None in Hfirst.
Qed.

Lemma str_values_keys w root d :
  forallb (entry_valid w root) d = true -> dict_keys (str_values d) = dict_keys d.
Proof.
  intros [Hentries _]%str_values_valid. unfold dict_keys.
  induction Hentries as [|kv entry d e Hhead _ IH]; [done|].
  destruct Hhead as (Hkey & _). by rewrite !fmap_cons, Hkey, IH.
Qed.

Lemma sort_each_log self codes w w1 :
  for_each codes (fun code => merge_language_files self code []) w = (Ok tt, w1) ->
  log w1 = log w ++ mjoin (sort_events self <$> codes).
Proof.
  revert w. induction codes as [|code codes IH]; intros w; simpl.
  - intros [= <-]. by rewrite app_nil_r.
  - unfold bind at 1.
    destruct (merge_language_files self code [] w) as [[u|e] w2] eqn:Hrun; [|done].
    destruct (merge_ok_inv _ _ _ _ _ _ Hrun) as (path & words & Hpath & _ & _ & _ & _ & _ & Hlog).
    intros Hrest. rewrite (IH _ Hrest), Hlog. unfold sort_events at 2.
    rewrite Hpath. simpl. by rewrite <- app_assoc.
Qed.

Lemma sort_each_writes self codes w w1 :
  for_each codes (fun code => merge_language_files self code []) w = (Ok tt, w1) ->
  Forall (fun code => exists path,
            lang_path self code = Some path /\
            OpenWrite path ∈ mjoin (sort_events self <$> codes)) codes.
Proof.
  revert w. induction codes as [|code codes IH]; intros w; simpl; [constructor|].
  unfold bind at 1.
  destruct (merge_language_files self code [] w) as [[u|e] w2] eqn:Hrun; [|done].
  destruct (merge_ok_inv _ _ _ _ _ _ Hrun) as (path & words & Hpath & _).
  intros Hrest. constructor.
  - exists path. split; [done|]. unfold sort_events at 1. rewrite Hpath.
    simpl. right. by left.
  - eapply Forall_impl; [by eapply IH|].
    intros c (path' & Hpath' & Hin). exists path'. split; [done|].
    rewrite elem_of_app. by right.
Qed.

(** C9. Once [__enter__] has returned the payload, sorting all languages is
    the loop over the keys of the registry document, each once, in the
    order of the document. When the loop comes to its end, the system calls
    made are the read and the write of each language in that order. When
    the merge of one code raises after the codes before it were done, the
    whole command raises that exception: it ends in the world the failing
    merge left, in which the files of the codes before it have been
    written, and the codes after it are not tried. *)
Theorem sort_all_stops_at_first_failure w payload w0 :
  __enter__ (LanguageDataIndex_init None) w = (Ok payload, w0) ->
  let body := fun code => merge_language_files payload code [] in
  cli CmdSortAll w = for_each (get_lang_codes payload) body w0 /\
  NoDup (get_lang_codes payload) /\
  (exists members,
     registry_document (LanguageDataIndex_init None) w = Some (JObject members) /\
     get_lang_codes payload = dict_keys (dict_of_pairs members)) /\
  (forall w1,
     for_each (get_lang_codes payload) body w0 = (Ok tt, w1) ->
     log w1 = log w0 ++ mjoin (sort_events payload <$> get_lang_codes payload)) /\
  (forall pre code post w1 e w2,
     get_lang_codes payload = pre ++ code :: post ->
     for_each pre body w0 = (Ok tt, w1) ->
     body code w1 = (Raise e, w2) ->
     cli CmdSortAll w = (Raise e, w2) /\
     log w1 = log w0 ++ mjoin (sort_events payload <$> pre) /\
     Forall (fun done => exists path,
                 lang_path payload done = Some path /\ OpenWrite path ∈ log w1) pre).
Proof.
  intros Henter body.
  assert (cli CmdSortAll w = for_each (get_lang_codes payload) body w0) as Hcli.
  { unfold cli. by rewrite with_run, (bind_ok _ _ _ _ _ Henter). }
  destruct (enter_ok_inv _ _ _ _ Henter) as (members & Hdoc & Hvalid & ->).
  assert (get_lang_codes (Payload (index_root (LanguageDataIndex_init None))
                            (str_values (dict_of_pairs members)))
          = dict_keys (dict_of_pairs members)) as Hkeys.
  { unfold get_lang_codes. simpl. by eapply str_values_keys. }
  split; [done|]. split.
  { rewrite Hkeys. apply dict_of_pairs_NoDup. }
  split; [by exists members|].
  split; [apply sort_each_log|].
  intros pre code post w1 e w2 Hcodes Hpre Hcode.
  split.
  { rewrite Hcli, Hcodes. by eapply for_each_raise_at. }
  pose proof (sort_each_log _ _ _ _ Hpre) as Hlog.
  split; [done|].
  eapply Forall_impl; [by eapply sort_each_writes|].
  intros c (path & Hpath & Hin). exists path. split; [done|].
  rewrite Hlog, elem_of_app. by right.
Qed.
End SortAll.

Section TwoLanguagesRun.
#[local] Existing Instance Demo.demo.

(** C9 at work: English and French are registered and only English has a
    locale. Sorting all languages fails on French, and by then the English
    list has been rewritten in order. *)
Lemma sort_all_stops_at_first_failure_witness :
  exists w2,
    cli CmdSortAll Demo.two_languages = (Raise (unsupported_locale "fr"), w2) /\
    content <$> files Demo.two_languages !! "/srv/english.txt"
      = Some (writelines [Demo.line "b"; Demo.line "a"]) /\
    content <$> files w2 !! "/srv/english.txt"
      = Some (writelines [Demo.line "a"; Demo.line "b"]) /\
    content <$> files w2 !! "/srv/french.txt"
      = Some (writelines [Demo.line "z"; Demo.line "y"]).
Proof.
  set (w0 := (__enter__ (LanguageDataIndex_init None) Demo.two_languages).2).
  set (w1 := (merge_language_files Demo.english_french "en" [] w0).2).
  set (w2 := (merge_language_files Demo.english_french "fr" [] w1).2).
  assert (__enter__ (LanguageDataIndex_init None) Demo.two_languages
          = (Ok Demo.english_french, w0)) as Henter.
  { vm_compute. reflexivity. }
  destruct (sort_all_stops_at_first_failure Demo.two_languages Demo.english_french
              w0 Henter) as (_ & _ & _ & _ & Hfail).
  destruct (Hfail ["en"] "fr" [] w1 (unsupported_locale "fr") w2) as [Hcli _].
  - reflexivity.
  - vm_compute. reflexivity.
  - vm_compute. reflexivity.
  - exists w2. split; [exact Hcli|]. vm_compute. repeat split; reflexivity.
Defined.
End TwoLanguagesRun.

(** ** The exceptions raised *)

Section Exceptions.
Context `{Platform}.

Lemma for_each_raise_inv {A} (xs : list A) (body : A -> IO unit) w e w' :
  for_each xs body w = (Raise e, w') ->
  exists x w1, x ∈ xs /\ body x w1 = (Raise e, w').
Proof.
  revert w. induction xs as [|x xs IH]; intros w; simpl; [done|].
  unfold bind at 1. destruct (body x w) as [[u|e1] w1] eqn:Hx.
  - intros (y & w2 & Hy & Hrun)%IH. exists y, w2. split; [by right|done].
  - intros [= <- <-]. exists x, w. split; [by left|done].
Qed.

Lemma enter_raise_inv self w e w' :
  __enter__ self w = (Raise e, w') ->
  e = registry_not_found (index_path_of self) \/
  e = registry_unparsable (index_path_of self) \/
  e = registry_not_a_dict (index_path_of self) \/
  exists key, e = registry_entry_invalid (index_path_of self) key.
Proof.
  rewrite enter_run. cbv zeta.
  destruct (can_read w (index_path_of self)); [|intros [= <- _]; by left].
  destruct (registry_document self w) as [doc|]; [|intros [= <- _]; right; by left].
  destruct doc; try (intros [= <- _]; right; right; by left).
  destruct (first_invalid _ _ _) as [key|]; [|done].
  intros [= <- _]. right. right. right. by exists key.
Qed.

Lemma merge_raise_inv self lang new_paths w e w' :
  merge_language_files self lang new_paths w = (Raise e, w') ->
  (e = unknown_language lang \/
   (exists stem, e = read_failure stem) \/
   e = collation_unavailable \/
   e = unsupported_locale lang \/
   (exists stem, e = write_failure stem)) \/
  (exists bad, bad ∈ new_paths /\ can_read w bad = false /\
               e = extra_file_failure bad).
Proof.
  rewrite merge_language_files_run.
  destruct (dict_get lang (path_mapping self)) as [stem|];
    [|intros [= <- _]; left; by left].
  cbv zeta. set (path := joinpath _ _).
  destruct (can_read w path);
    [|intros [= <- _]; left; right; left; by exists stem].
  destruct (first_unreadable w new_paths) as [bad|] eqn:Hbad.
  { intros [= <- _]. right. exists bad.
    by destruct (first_unreadable_Some _ _ _ Hbad) as (? & ? & _). }
  unfold sort_answer.
  destruct icu as [m|]; [|intros [= <- _]; left; right; right; by left].
  destruct (getAvailableLocales m !! lang) as [locale|];
    [|intros [= <- _]; left; right; right; right; by left].
  destruct (store_file _ _ _) as [[u|e1] w2]; [done|].
  intros [= <- _]. left. right. right. right. right. by exists stem.
Qed.

End Exceptions.

(** ** The scenarios of the specification *)

Section Scenarios.
#[local] Existing Instance Demo.demo.

(** The registry maps [en] to [english]; sorting the list of [b] then [a]
    gives [a] then [b]. *)
Example scenario_sort :
  let out := cli (CmdSort "en")
               (World {[ "/srv/languages.json" := Demo.plain Demo.doc_en;
                         "/srv/english.txt"
                           := Demo.plain (Demo.line "b" ++ Demo.line "a") ]} 0 []) in
  out.1 = Ok tt /\
  content <$> files out.2 !! "/srv/english.txt"
    = Some (writelines [Demo.line "a"; Demo.line "b"]) /\
  log out.2 = [OpenRead "/srv/languages.json"; PathExists "/srv/english.txt";
               OpenRead "/srv/english.txt"; OpenWrite "/srv/english.txt"].
Proof. vm_compute. repeat split; reflexivity. Qed.

(** Merging a file that holds [a] into the list of [a] then [b] adds
    nothing. *)
Example scenario_merge_duplicate :
  let out := cli (CmdMerge "en" ["/tmp/new.txt"])
               (World {[ "/srv/languages.json" := Demo.plain Demo.doc_en;
                         "/srv/english.txt"
                           := Demo.plain (Demo.line "a" ++ Demo.line "b");
                         "/tmp/new.txt" := Demo.plain (Demo.line "a") ]} 0 []) in
  out.1 = Ok tt /\
  content <$> files out.2 !! "/srv/english.txt"
    = Some (writelines [Demo.line "a"; Demo.line "b"]).
Proof. vm_compute. repeat split; reflexivity. Qed.

(** The registry names a file that does not exist: loading it fails before
    any command runs, and no list is opened. *)
Example scenario_missing_language_file :
  let out := cli (CmdSort "en")
               (World {[ "/srv/languages.json" := Demo.plain Demo.doc_en ]} 0 []) in
  out.1 = Raise (registry_entry_invalid "/srv/languages.json" "en") /\
  log out.2 = [OpenRead "/srv/languages.json"; PathExists "/srv/english.txt"].
Proof. vm_compute. repeat split; reflexivity. Qed.

(** The two spellings of cafe end up as one line, between [a] and [the]. *)
Example scenario_two_spellings :
  content <$>
    files (merge_language_files Demo.english "en" ["/tmp/new.txt"]
             Demo.two_spellings).2 !! "/srv/english.txt"
  = Some (writelines [Demo.line "a"; Demo.line Demo.cafe_composed; Demo.line "the"]).
Proof. vm_compute. reflexivity. Qed.
End Scenarios.

(** * Further properties of the script *)

(** ** Lines written and read back *)

Lemma universal_newlines_line s t :
  is_line s = true -> universal_newlines (s ++ t) = (s ++ universal_newlines t)%string.
Proof.
  induction s as [|c s IH]; [done|]. simpl.
  destruct (Ascii.eqb c LF) eqn:Hlf.
  - destruct s; [|done]. intros _. simpl.
    apply Ascii.eqb_eq in Hlf as ->. done.
  - destruct (Ascii.eqb c CR) eqn:Hcr; [done|].
    intros Hs. by rewrite IH.
Qed.

Lemma split_keepends_line s t :
  is_line s = true -> split_keepends (s ++ t) = s :: split_keepends t.
Proof.
  induction s as [|c s IH]; [done|]. simpl.
  destruct (Ascii.eqb c LF) eqn:Hlf.
  - destruct s; [|done]. done.
  - destruct (Ascii.eqb c CR) eqn:Hcr; [done|].
    intros Hs. by rewrite IH.
Qed.

Lemma universal_newlines_writelines words :
  Forall (fun s => is_line s = true) words ->
  universal_newlines (writelines words) = writelines words.
Proof.
  induction 1 as [|s words Hs _ IH]; [done|]. simpl.
  by rewrite universal_newlines_line, IH.
Qed.

Lemma readlines_writelines words :
  Forall (fun s => is_line s = true) words -> readlines (writelines words) = words.
Proof.
  intros Hwords. unfold readlines. rewrite universal_newlines_writelines by done.
  induction Hwords as [|s words Hs _ IH]; [done|]. simpl.
  by rewrite split_keepends_line, IH.
Qed.

Section StoreRoundTrip.
Context `{Platform}.

Lemma dict_get_is_Some {V} (k : string) (d : list (string * V)) :
  is_Some (dict_get k d) <-> k ∈ dict_keys d.
Proof.
  unfold dict_keys. induction d as [|[k' v] d IH]; simpl.
  - split; [by intros [? ?]|]. by intros ?%elem_of_nil.
  - rewrite elem_of_cons. destruct (decide (k' = k)) as [->|Hne].
    + split; [by left|by eexists].
    + rewrite IH. naive_solver.
Qed.

Lemma dict_get_elem_of {V} (k : string) (v : V) (d : list (string * V)) :
  dict_get k d = Some v -> (k, v) ∈ d.
Proof.
  induction d as [|[k' v'] d IH]; simpl; [done|].
  destruct (decide (k' = k)) as [->|Hne].
  - intros [= ->]. by left.
  - intros Hget. right. by apply IH.
Qed.

(** X1. When a list of words, each a line ended by one line feed, has been
    written to the file of a language that was readable or did not exist,
    reading the language gives the same words back, and changes no file. *)
Theorem read_gives_back_what_was_written self lang words w w1 path :
  lang_path self lang = Some path ->
  from_option readable true (files w !! path) = true ->
  Forall (fun s => is_line s = true) words ->
  write_to_language_file self lang words w = (Ok tt, w1) ->
  exists w2,
    read_language_file self lang w1 = (Ok words, w2) /\
    files w2 = files w1.
Proof.
  intros Hpath Hrd Hwords. unfold lang_path in Hpath.
  rewrite write_to_language_file_run, read_language_file_run.
  destruct (dict_get lang (path_mapping self)) as [stem|]; [|done].
  injection Hpath as Hpath. cbv zeta. rewrite Hpath.
  set (w0 := logged [OpenWrite path] w).
  destruct (store_file_cases path (writelines words) w0)
    as [[_ ->]|[[Hfits ->]|[Hfull ->]]]; [done| |done].
  intros [= <-]. eexists. split.
  - unfold can_read, lines_of. simpl. rewrite lookup_insert_eq. simpl.
    rewrite Hrd. by rewrite readlines_writelines.
  - simpl. by rewrite Hrd.
Qed.

(** X2. The codes [get_lang_codes] lists are exactly those for which
    [get_path] returns a path, and it leaves the world alone. *)
Theorem get_path_succeeds_on_listed_codes self lang w :
  lang ∈ get_lang_codes self <-> exists path, get_path self lang w = (Ok path, w).
Proof.
  unfold get_lang_codes. rewrite <- dict_get_is_Some, get_path_run.
  unfold lang_path. destruct (dict_get lang (path_mapping self)) as [stem|]; simpl.
  - split; [by eexists|by eexists].
  - split; [by intros [? ?]|by intros [? ?]].
Qed.
End StoreRoundTrip.

Section WrittenAndRead.
#[local] Existing Instance Demo.demo.

(** X1 at work: two words written to the English list and read back. *)
Lemma read_gives_back_what_was_written_witness :
  exists w2,
    read_language_file Demo.english "en"
      (write_to_language_file Demo.english "en" [Demo.line "a"; Demo.line "b"]
         Demo.two_spellings).2
    = (Ok [Demo.line "a"; Demo.line "b"], w2) /\
    files w2
    = files (write_to_language_file Demo.english "en" [Demo.line "a"; Demo.line "b"]
               Demo.two_spellings).2.
Proof.
  apply (read_gives_back_what_was_written Demo.english "en"
           [Demo.line "a"; Demo.line "b"] Demo.two_spellings _ "/srv/english.txt").
  - reflexivity.
  - vm_compute. reflexivity.
  - by_computation.
  - vm_compute. reflexivity.
Defined.
End WrittenAndRead.

(** ** What a merge writes *)

Section MergeResult.
Context `{Platform}.

Lemma elem_of_input_lines s w path new_paths :
  s ∈ input_lines w path new_paths <->
  exists p, p ∈ path :: new_paths /\ s ∈ lines_of w p.
Proof.
  unfold input_lines. rewrite elem_of_app, list_elem_of_join. split.
  - intros [Hs|(l & Hs & (p & -> & Hp)%list_elem_of_fmap)].
    + exists path. split; [by left|done].
    + exists p. split; [by right|done].
  - intros (p & [->|Hp]%elem_of_cons & Hs); [by left|].
    right. exists (lines_of w p). split; [done|].
    apply list_elem_of_fmap. by exists p.
Qed.

(** X3. The list a merge writes has no word twice, is in the order of the
    sort keys, and holds exactly the normalised lines of the language file
    and of the new files: no word is lost and none is made up. *)
Theorem merge_writes_the_normalised_lines_sorted self lang new_paths w w1 path :
  merge_language_files self lang new_paths w = (Ok tt, w1) ->
  lang_path self lang = Some path ->
  exists words m locale,
    icu = Some m /\
    getAvailableLocales m !! lang = Some locale /\
    content <$> files w1 !! path = Some (writelines words) /\
    NoDup words /\
    StronglySorted (key_le (sort_key m locale IDENTICAL)) words /\
    (forall v, v ∈ words <->
               exists p s, p ∈ path :: new_paths /\ s ∈ lines_of w p /\
                           v = normalize_NFC s).
Proof.
  intros Hrun Hpath.
  destruct (merge_ok_inv _ _ _ _ _ _ Hrun)
    as (path' & words & Hpath' & _ & _ & Hsort & Hfile & _).
  assert (path' = path) as -> by congruence.
  destruct (sort_answer_ok _ _ _ Hsort) as (m & locale & Hicu & Hloc & Hwords).
  exists words, m, locale. rewrite Hfile. simpl.
  do 3 (split; [done|]).
  pose proof (sort_answer_perm _ _ _ Hsort) as Hperm.
  split; [rewrite Hperm; apply set_iter_NoDup|].
  split; [rewrite Hwords; apply sorted_StronglySorted|].
  intros v. rewrite Hperm, elem_of_set_iter, elem_of_word_set.
  split.
  - intros (s & (p & Hp & Hs)%elem_of_input_lines & ->). by exists p, s.
  - intros (p & s & Hp & Hs & ->). exists s. split; [|done].
    apply elem_of_input_lines. by exists p.
Qed.
End MergeResult.

Section MergeResultRun.
#[local] Existing Instance Demo.demo.

(** X3 at work, on the list and the new file that spell cafe in two ways. *)
Lemma merge_writes_the_normalised_lines_sorted_witness :
  exists words m locale,
    icu = Some m /\
    getAvailableLocales m !! "en" = Some locale /\
    content <$>
      files (merge_language_files Demo.english "en" ["/tmp/new.txt"]
               Demo.two_spellings).2 !! "/srv/english.txt"
      = Some (writelines words) /\
    NoDup words /\
    StronglySorted (key_le (sort_key m locale IDENTICAL)) words /\
    (forall v, v ∈ words <->
               exists p s, p ∈ "/srv/english.txt" :: ["/tmp/new.txt"] /\
                           s ∈ lines_of Demo.two_spellings p /\
                           v = normalize_NFC s).
Proof.
  apply (merge_writes_the_normalised_lines_sorted Demo.english "en" ["/tmp/new.txt"]
           Demo.two_spellings).
  - vm_compute. reflexivity.
  - reflexivity.
Defined.
End MergeResultRun.

(** ** Ties in the sort *)

Section Stability.
Context (key : string -> string).

Lemma key_lt_irrefl x y : key x = key y -> key_lt key x y = false.
Proof.
  unfold key_lt, String.ltb. intros ->.
  pose proof (String.compare_antisym (key y) (key y)) as Hanti.
  by destruct (String.compare (key y) (key y)).
Qed.

Lemma insert_sorted_filter x l k :
  filter (fun y => key y = k) (insert_sorted key x l)
  = if decide (key x = k) then x :: filter (fun y => key y = k) l
    else filter (fun y => key y = k) l.
Proof.
  induction l as [|y l IH]; simpl.
  - rewrite filter_cons, filter_nil. done.
  - destruct (key_lt key y x) eqn:Hlt.
    + rewrite !filter_cons, IH.
      destruct (decide (key x = k)) as [Hx|Hx]; [|done].
      destruct (decide (key y = k)) as [Hy|Hy]; [|done].
      rewrite key_lt_irrefl in Hlt by congruence. done.
    + by rewrite (filter_cons _ x).
Qed.

Lemma sorted_filter l k :
  filter (fun y => key y = k) (sorted key l) = filter (fun y => key y = k) l.
Proof.
  induction l as [|x l IH]; simpl; [done|].
  by rewrite insert_sorted_filter, filter_cons, IH.
Qed.
End Stability.

Section StableSort.
Context `{Platform}.

(** X4. [sort_word_list] returns every word it was given, repeated words
    as often as given, and words to which the collator gives the same key
    in the order in which they were given. *)
Theorem sort_word_list_is_stable lang words w answer w' :
  sort_word_list lang words w = (Ok answer, w') ->
  exists m locale,
    icu = Some m /\
    getAvailableLocales m !! lang = Some locale /\
    length answer = length words /\
    (forall x, count_occ string_dec answer x = count_occ string_dec words x) /\
    (forall k, filter (fun x => sort_key m locale IDENTICAL x = k) answer
               = filter (fun x => sort_key m locale IDENTICAL x = k) words).
Proof.
  rewrite sort_word_list_run. intros [= Hanswer _].
  destruct (sort_answer_ok _ _ _ Hanswer) as (m & locale & Hicu & Hloc & ->).
  exists m, locale. do 2 (split; [done|]).
  pose proof (sorted_perm (sort_key m locale IDENTICAL) words) as Hperm.
  split; [by rewrite Hperm|].
  split.
  - intros x. by apply Permutation_count_occ.
  - intros k. apply sorted_filter.
Qed.
End StableSort.

Section StableSortRun.
#[local] Existing Instance Demo.demo.

(** X4 at work: a word given twice comes back twice. *)
Lemma sort_word_list_is_stable_witness :
  exists m locale,
    icu = Some m /\
    getAvailableLocales m !! "en" = Some locale /\
    length [Demo.line "a"; Demo.line "a"; Demo.line "b"]
      = length [Demo.line "b"; Demo.line "a"; Demo.line "a"] /\
    (forall x, count_occ string_dec [Demo.line "a"; Demo.line "a"; Demo.line "b"] x
               = count_occ string_dec [Demo.line "b"; Demo.line "a"; Demo.line "a"] x) /\
    (forall k,
       filter (fun x => sort_key m locale IDENTICAL x = k)
              [Demo.line "a"; Demo.line "a"; Demo.line "b"]
       = filter (fun x => sort_key m locale IDENTICAL x = k)
                [Demo.line "b"; Demo.line "a"; Demo.line "a"]).
Proof.
  apply (sort_word_list_is_stable "en" [Demo.line "b"; Demo.line "a"; Demo.line "a"]
           Demo.sorted_list
           [Demo.line "a"; Demo.line "a"; Demo.line "b"] Demo.sorted_list).
  vm_compute. reflexivity.
Defined.
End StableSortRun.

(** ** Merging the same files again, or in another order *)

Section MergeAgain.
Context `{Platform}.

Lemma store_file_logged path data evs w :
  store_file path data (logged evs w)
  = ((store_file path data w).1, logged evs (store_file path data w).2).
Proof.
  unfold store_file. simpl. repeat case_bool_decide; done.
Qed.

Lemma word_set_input_lines_ext w1 w2 path l1 l2 :
  (forall s, (exists p, p ∈ path :: l1 /\ s ∈ lines_of w1 p) ->
             exists t, (exists p, p ∈ path :: l2 /\ t ∈ lines_of w2 p) /\
                       normalize_NFC s = normalize_NFC t) ->
  word_set (input_lines w1 path l1) ⊆ word_set (input_lines w2 path l2).
Proof.
  intros Hsub v. rewrite !elem_of_word_set.
  intros (s & Hs%elem_of_input_lines & ->).
  destruct (Hsub s Hs) as (t & Ht & Heq).
  exists t. split; [by apply elem_of_input_lines|done].
Qed.

(** X5. Two merges into the same language from the same world, whose lists
    of new files name the same files (in any order, any number of times,
    the language file itself counting as named), leave the same files and
    the same free space; and when the new files of the first can all be
    read, they end alike: both return, or both raise the same exception. *)
Theorem merge_ignores_order_and_repeats self lang paths1 paths2 w path :
  lang_path self lang = Some path ->
  (forall p, p ∈ path :: paths1 <-> p ∈ path :: paths2) ->
  let out1 := merge_language_files self lang paths1 w in
  let out2 := merge_language_files self lang paths2 w in
  files out1.2 = files out2.2 /\
  free_space out1.2 = free_space out2.2 /\
  (Forall (fun p => can_read w p = true) paths1 -> out1.1 = out2.1).
Proof.
  intros Hpath Hsame out1 out2. subst out1 out2.
  rewrite !merge_language_files_run. unfold lang_path in Hpath.
  destruct (dict_get lang (path_mapping self)) as [stem|]; [|done].
  injection Hpath as Hpath. cbv zeta. rewrite Hpath.
  destruct (can_read w path) eqn:Hread; [|done].
  assert (forall l1 l2 bad,
            (forall p, p ∈ path :: l1 -> p ∈ path :: l2) ->
            first_unreadable w l1 = Some bad -> first_unreadable w l2 = None -> False)
    as Hnone.
  { intros l1 l2 bad Hsub (Hin & Hno & _)%first_unreadable_Some Hall.
    rewrite first_unreadable_None, Forall_forall in Hall.
    assert (bad ∈ path :: l2) as Hbad by (apply Hsub; by right).
    apply elem_of_cons in Hbad as [->|Hin2]; [congruence|].
    specialize (Hall _ Hin2). congruence. }
  destruct (first_unreadable w paths1) as [bad1|] eqn:Hbad1;
    destruct (first_unreadable w paths2) as [bad2|] eqn:Hbad2.
  - simpl. do 2 (split; [done|]). intros Hall%first_unreadable_None. congruence.
  - exfalso. eapply (Hnone paths1 paths2); [|done..]. intros p. apply Hsame.
  - exfalso. eapply (Hnone paths2 paths1); [|done..]. intros p. apply Hsame.
  - assert (word_set (input_lines w path paths1) = word_set (input_lines w path paths2))
      as ->.
    { apply (anti_symm (⊆)); apply word_set_input_lines_ext;
        intros s (p & Hp & Hs); exists s; (split; [|done]); exists p;
        (split; [|done]); by apply Hsame. }
    destruct (sort_answer lang _) as [words|e]; [|done].
    rewrite !logged_logged, !store_file_logged.
    by destruct (store_file path (writelines words) w) as [[u|e] w'].
Qed.

(** X6. After a merge that returned, merging again into the same language
    any of the same new files, or none, returns as well and leaves every
    file and the free space as they are. This holds when the normalised
    lines read by the first merge are each ended by one line feed, and
    normalising them again changes nothing. *)
Theorem merge_again_changes_nothing self lang new_paths again w w1 path :
  merge_language_files self lang new_paths w = (Ok tt, w1) ->
  lang_path self lang = Some path ->
  Forall (fun s => is_line (normalize_NFC s) = true) (input_lines w path new_paths) ->
  (forall s, s ∈ input_lines w path new_paths ->
             normalize_NFC (normalize_NFC s) = normalize_NFC s) ->
  again ⊆ new_paths ->
  exists w2,
    merge_language_files self lang again w1 = (Ok tt, w2) /\
    files w2 = files w1 /\
    free_space w2 = free_space w1.
Proof.
  intros Hrun Hpath Hlines Hidem Hagain.
  destruct (merge_ok_inv _ _ _ _ _ _ Hrun)
    as (path' & words & Hpath' & Hread & Hreads & Hsort & Hfile & Hothers & _).
  assert (path' = path) as -> by congruence.
  pose proof (sort_answer_perm _ _ _ Hsort) as Hperm.
  set (S := word_set (input_lines w path new_paths)) in *.
  assert (forall v, v ∈ words <-> v ∈ S) as Hmem.
  { intros v. by rewrite Hperm, elem_of_set_iter. }
  assert (from_option readable true (files w !! path) = true) as Hrd.
  { unfold can_read in Hread. by destruct (files w !! path). }
  rewrite Hrd in Hfile.
  assert (Forall (fun s => is_line s = true) words) as Hwords.
  { rewrite Forall_forall. intros v (s & Hs & ->)%Hmem%elem_of_word_set.
    rewrite Forall_forall in Hlines. by apply Hlines. }
  assert (lines_of w1 path = words) as Hlines1.
  { unfold lines_of. rewrite Hfile. simpl. by apply readlines_writelines. }
  assert (forall p, p ≠ path -> lines_of w1 p = lines_of w p) as Hlines2.
  { intros p Hp. unfold lines_of. by rewrite Hothers. }
  assert (forall v, v ∈ words -> normalize_NFC v = v) as Hfixed.
  { intros v (s & Hs & ->)%Hmem%elem_of_word_set. by apply Hidem. }
  assert (word_set (input_lines w1 path again) = S) as Hset.
  { apply (anti_symm (⊆)).
    - intros v. rewrite elem_of_word_set.
      intros (s & (p & Hp & Hs)%elem_of_input_lines & ->).
      destruct (decide (p = path)) as [->|Hne].
      + rewrite Hlines1 in Hs. rewrite (Hfixed _ Hs). by apply Hmem.
      + rewrite (Hlines2 _ Hne) in Hs. apply elem_of_word_set. exists s.
        split; [|done]. apply elem_of_input_lines. exists p. split; [|done].
        apply elem_of_cons in Hp as [->|Hp]; [done|]. right. by apply Hagain.
    - intros v Hv. apply elem_of_word_set. exists v.
      apply Hmem in Hv. split; [|by rewrite (Hfixed _ Hv)].
      apply elem_of_input_lines. exists path. split; [by left|].
      by rewrite Hlines1. }
  rewrite merge_language_files_run. unfold lang_path in Hpath.
  destruct (dict_get lang (path_mapping self)) as [stem|]; [|done].
  injection Hpath as Hpath. cbv zeta. rewrite Hpath.
  assert (can_read w1 path = true) as ->.
  { unfold can_read. by rewrite Hfile. }
  assert (first_unreadable w1 again = None) as ->.
  { apply first_unreadable_None, Forall_forall. intros p Hp.
    destruct (decide (p = path)) as [->|Hne].
    - unfold can_read. by rewrite Hfile.
    - unfold can_read. rewrite (Hothers _ Hne).
      rewrite Forall_forall in Hreads. by apply Hreads, Hagain. }
  rewrite Hset. fold S in Hsort. rewrite Hsort.
  rewrite !logged_logged, store_file_logged.
  unfold store_file. rewrite Hfile. simpl.
  rewrite bool_decide_eq_true_2 by lia.
  eexists. split; [done|]. simpl. split.
  - by apply insert_id.
  - lia.
Qed.
End MergeAgain.

Section MergeAgainRun.
#[local] Existing Instance Demo.demo.

(** X5 at work: the new file named twice, after the list itself. *)
Lemma merge_ignores_order_and_repeats_witness :
  let out1 := merge_language_files Demo.english "en" ["/tmp/new.txt"]
                Demo.two_spellings in
  let out2 := merge_language_files Demo.english "en"
                ["/srv/english.txt"; "/tmp/new.txt"; "/tmp/new.txt"]
                Demo.two_spellings in
  files out1.2 = files out2.2 /\
  free_space out1.2 = free_space out2.2 /\
  (Forall (fun p => can_read Demo.two_spellings p = true) ["/tmp/new.txt"] ->
   out1.1 = out2.1).
Proof.
  apply (merge_ignores_order_and_repeats Demo.english "en" ["/tmp/new.txt"]
           ["/srv/english.txt"; "/tmp/new.txt"; "/tmp/new.txt"]
           Demo.two_spellings "/srv/english.txt").
  - reflexivity.
  - intros p. rewrite !elem_of_cons. naive_solver.
Defined.

(** X6 at work: after the merge of the two spellings, a sort changes
    nothing. *)
Lemma merge_again_changes_nothing_witness :
  exists w2,
    merge_language_files Demo.english "en" []
      (merge_language_files Demo.english "en" ["/tmp/new.txt"] Demo.two_spellings).2
    = (Ok tt, w2) /\
    files w2
    = files (merge_language_files Demo.english "en" ["/tmp/new.txt"]
               Demo.two_spellings).2 /\
    free_space w2
    = free_space (merge_language_files Demo.english "en" ["/tmp/new.txt"]
                    Demo.two_spellings).2.
Proof.
  apply (merge_again_changes_nothing Demo.english "en" ["/tmp/new.txt"] []
           Demo.two_spellings _ "/srv/english.txt").
  - vm_compute. reflexivity.
  - reflexivity.
  - by_computation.
  - intros s Hs.
    assert (s ∈ [Demo.line "the"; Demo.line Demo.cafe_composed;
                 Demo.line Demo.cafe_decomposed; Demo.line "a"]) as Hin by exact Hs.
    rewrite !elem_of_cons in Hin.
    destruct Hin as [->|[->|[->|[->|Hin]]]]; try (vm_compute; reflexivity).
    by apply elem_of_nil in Hin.
  - by intros p Hp%elem_of_nil.
Defined.
End MergeAgainRun.

(** ** Without a collator nothing is written *)

Section NoCollator.
Context `{Platform}.

Lemma enter_keeps_files self w :
  files (__enter__ self w).2 = files w /\
  free_space (__enter__ self w).2 = free_space w.
Proof.
  rewrite enter_run. cbv zeta.
  destruct (can_read w (index_path_of self)); [|done].
  destruct (registry_document self w) as [doc|]; [|done].
  by destruct doc.
Qed.

Lemma merge_without_sort self lang new_paths w :
  (forall words, exists e, sort_answer lang words = Raise e) ->
  exists e evs,
    merge_language_files self lang new_paths w = (Raise e, logged evs w) /\
    Forall (fun ev => exists q, ev = OpenRead q) evs.
Proof.
  intros Hno. rewrite merge_language_files_run.
  assert (forall qs, Forall (fun ev => exists q, ev = OpenRead q) (OpenRead <$> qs))
    as Hreads.
  { intros qs. apply Forall_fmap, Forall_forall. intros q _. by exists q. }
  destruct (dict_get lang (path_mapping self)) as [stem|].
  2:{ exists (unknown_language lang), []. by rewrite logged_nil. }
  cbv zeta. set (path := joinpath _ _).
  destruct (can_read w path).
  2:{ eexists _, _. split; [done|]. constructor; [by eexists|constructor]. }
  destruct (first_unreadable w new_paths) as [bad|].
  { eexists _, _. split; [done|]. constructor; [by eexists|apply Hreads]. }
  destruct (Hno (set_iter (word_set (input_lines w path new_paths)))) as [e ->].
  eexists _, _. split; [done|]. constructor; [by eexists|apply Hreads].
Qed.

(** X7. When the [icu] module is missing, or has no locale for the
    language, a merge into that language always raises, opens files only
    for reading, and leaves every file and the free space as they were.
    The collator is looked for last: when the language file and all the
    new files can be read, they have all been read, in order, before the
    merge raises the error of the missing module or locale. *)
Theorem merge_without_collator_writes_nothing self lang new_paths w :
  (icu = None \/ exists m, icu = Some m /\ getAvailableLocales m !! lang = None) ->
  let out := merge_language_files self lang new_paths w in
  (exists e, out.1 = Raise e) /\
  files out.2 = files w /\
  free_space out.2 = free_space w /\
  (exists evs, log out.2 = log w ++ evs /\
               Forall (fun ev => exists q, ev = OpenRead q) evs) /\
  (forall path,
     lang_path self lang = Some path ->
     can_read w path = true ->
     Forall (fun p => can_read w p = true) new_paths ->
     (out.1 = Raise collation_unavailable \/ out.1 = Raise (unsupported_locale lang)) /\
     log out.2 = log w ++ OpenRead path :: (OpenRead <$> new_paths)).
Proof.
  intros Hno out. subst out.
  assert (forall words,
            sort_answer lang words = Raise collation_unavailable \/
            sort_answer lang words = Raise (unsupported_locale lang)) as Hsort.
  { intros words. unfold sort_answer.
    destruct Hno as [->|(m & -> & ->)]; [by left|by right]. }
  destruct (merge_without_sort self lang new_paths w) as (e & evs & Hrun & Hevs).
  { intros words. destruct (Hsort words) as [->| ->]; by eexists. }
  rewrite Hrun. simpl. split; [by exists e|]. do 2 (split; [done|]).
  split; [by exists evs|].
  intros path Hpath Hread Hall%first_unreadable_None.
  rewrite merge_language_files_run in Hrun. unfold lang_path in Hpath.
  destruct (dict_get lang (path_mapping self)) as [stem|]; [|done].
  injection Hpath as Hpath. cbv zeta in Hrun. rewrite Hpath, Hread, Hall in Hrun.
  destruct (Hsort (set_iter (word_set (input_lines w path new_paths)))) as [Hs|Hs];
    rewrite Hs in Hrun; injection Hrun as <- Hlog;
    (split; [by auto|]); apply app_inv_head in Hlog; by rewrite <- Hlog.
Qed.

Lemma for_each_raising_keeps_files {A} (xs : list A) (body : A -> IO unit) w :
  (forall x w1, exists e evs, body x w1 = (Raise e, logged evs w1)) ->
  files (for_each xs body w).2 = files w /\
  free_space (for_each xs body w).2 = free_space w.
Proof.
  intros Hbody. destruct xs as [|x xs]; simpl; [done|].
  unfold bind. destruct (Hbody x w) as (e & evs & ->). done.
Qed.

(** X8. Without the [icu] module no command changes a file or the free
    space of the device, whatever the command and the registry. *)
Theorem commands_without_icu_write_nothing cmd w :
  icu = None ->
  files (cli cmd w).2 = files w /\
  free_space (cli cmd w).2 = free_space w.
Proof.
  intros Hicu.
  assert (forall lang words, exists e, sort_answer lang words = Raise e) as Hno.
  { intros lang words. unfold sort_answer. rewrite Hicu. by eexists. }
  destruct cmd as [lang| |lang rest|]; unfold cli; [| | |done];
    rewrite with_run; unfold bind;
    pose proof (enter_keeps_files (LanguageDataIndex_init None) w) as [Hfiles Hfree];
    destruct (__enter__ (LanguageDataIndex_init None) w) as [[payload|e] w0];
    simpl in *; try done.
  - destruct (merge_without_sort payload lang [] w0 (Hno lang)) as (e & evs & -> & _).
    simpl. by rewrite Hfiles, Hfree.
  - destruct (for_each_raising_keeps_files (get_lang_codes payload)
                (fun code => merge_language_files payload code []) w0) as [-> ->].
    + intros code w1.
      destruct (merge_without_sort payload code [] w1 (Hno code)) as (e & evs & -> & _).
      by eexists _, _.
    + done.
  - destruct (merge_without_sort payload lang rest w0 (Hno lang)) as (e & evs & -> & _).
    simpl. by rewrite Hfiles, Hfree.
Qed.
End NoCollator.

Section NoCollatorRun.

(** X7 at work: French has no locale on the platform of the examples. *)
Lemma merge_without_collator_writes_nothing_witness :
  let out := merge_language_files (H := Demo.demo) Demo.english_french "fr" []
               Demo.two_languages in
  (exists e, out.1 = Raise e) /\
  files out.2 = files Demo.two_languages /\
  free_space out.2 = free_space Demo.two_languages /\
  (exists evs, log out.2 = log Demo.two_languages ++ evs /\
               Forall (fun ev => exists q, ev = OpenRead q) evs) /\
  (forall path,
     lang_path (H := Demo.demo) Demo.english_french "fr" = Some path ->
     can_read Demo.two_languages path = true ->
     Forall (fun p => can_read Demo.two_languages p = true) [] ->
     (out.1 = Raise collation_unavailable \/
      out.1 = Raise (unsupported_locale (H := Demo.demo) "fr")) /\
     log out.2 = log Demo.two_languages ++ OpenRead path :: (OpenRead <$> [])).
Proof.
  apply (merge_without_collator_writes_nothing (H := Demo.demo)
           Demo.english_french "fr" [] Demo.two_languages).
  right. exists Demo.demo_icu. split; reflexivity.
Defined.

(** X8 at work: sorting all languages on the platform without [icu]. *)
Lemma commands_without_icu_write_nothing_witness :
  files (cli (H := Demo.demo_without_icu) CmdSortAll Demo.two_languages).2
    = files Demo.two_languages /\
  free_space (cli (H := Demo.demo_without_icu) CmdSortAll Demo.two_languages).2
    = free_space Demo.two_languages.
Proof.
  apply (commands_without_icu_write_nothing (H := Demo.demo_without_icu)).
  reflexivity.
Defined.
End NoCollatorRun.

(** ** A loaded registry *)

Section LoadedRegistry.
Context `{Platform}.

(** X9. Once [__enter__] has returned a payload, [get_path] returns a path
    for every code the payload lists, and the file at that path, the stem
    of the code with [.txt] under the root, exists: a listed code is never
    unrecognised. *)
Theorem listed_codes_resolve self w payload w0 code :
  __enter__ self w = (Ok payload, w0) ->
  code ∈ get_lang_codes payload ->
  exists stem,
    dict_get code (path_mapping payload) = Some stem /\
    get_path payload code w0
      = (Ok (joinpath (index_root self) (stem ++ ".txt")), w0) /\
    is_Some (files w0 !! joinpath (index_root self) (stem ++ ".txt")).
Proof.
  intros Henter Hcode.
  pose proof (enter_keeps_files self w) as [Hfiles _].
  rewrite Henter in Hfiles. simpl in Hfiles.
  destruct (enter_ok_inv _ _ _ _ Henter) as (members & _ & Hvalid & ->).
  unfold get_lang_codes in Hcode. simpl in Hcode.
  apply dict_get_is_Some in Hcode as [stem Hstem].
  exists stem. simpl. split; [done|].
  split. { unfold get_path. simpl. by rewrite Hstem. }
  apply dict_get_elem_of, list_elem_of_lookup in Hstem as [i Hi].
  destruct (str_values_valid _ _ _ Hvalid) as [Hentries _].
  destruct (Forall2_lookup_r _ _ _ _ _ Hentries Hi) as (kv & _ & _ & _ & Hexists).
  by rewrite Hfiles.
Qed.

Lemma first_invalid_app w root before kv after :
  forallb (entry_valid w root) before = true ->
  entry_valid w root kv = false ->
  first_invalid w root (before ++ kv :: after) = Some kv.1 /\
  checked w root (before ++ kv :: after)
  = omap (entry_path root) before ++ option_list (entry_path root kv).
Proof.
  intros Hbefore Hkv. induction before as [|kv' before IH]; simpl in *.
  - rewrite Hkv. split; [done|]. by destruct (entry_path root kv).
  - apply andb_true_iff in Hbefore as [Hkv' Hbefore].
    destruct (IH Hbefore) as [-> ->]. rewrite Hkv'. split; [done|].
    unfold entry_valid in Hkv'. by destruct (entry_path root kv').
Qed.

Lemma entries_found_valid w root before :
  Forall (entry_found w root) before ->
  forallb (entry_valid w root) before = true.
Proof.
  induction 1 as [|kv before (value & Hvalue & Hfound) _ IH]; simpl; [done|].
  rewrite IH, andb_true_r. unfold entry_valid, entry_path. rewrite Hvalue.
  rewrite path_exists_run in Hfound. simpl in Hfound. by injection Hfound.
Qed.

Lemma entry_refused_invalid w root kv :
  entry_refused w root kv -> entry_valid w root kv = false.
Proof.
  unfold entry_valid, entry_path.
  intros [Hother|(value & Hvalue & Hmissing)].
  - destruct kv.2 as [| | |value| |]; try done. by destruct (Hother value).
  - rewrite Hvalue. rewrite path_exists_run in Hmissing. simpl in Hmissing.
    by injection Hmissing.
Qed.

Lemma registry_document_read self w text :
  (open_read (index_path_of self) w).1 = Ok text ->
  can_read w (index_path_of self) = true /\
  registry_document self w = json_parse (universal_newlines text).
Proof.
  intros [Hread ->]%open_read_succeeds. unfold registry_document.
  by rewrite Hread.
Qed.

(** X10. [__enter__] stops at the first entry of the registry that is
    refused. When the registry was read and is an object, [exists()]
    answered [True] for the files of the entries before some entry, and
    that entry is not a string or [exists()] answered [False] for its
    file, [__enter__] raises the error naming the key of that entry,
    having asked for the files of the entries before it and, when its
    value is a string, for its own, and for none after. *)
Theorem registry_rejected_at_first_bad_entry self w text members before kv after :
  (open_read (index_path_of self) w).1 = Ok text ->
  json_parse (universal_newlines text) = Some (JObject members) ->
  dict_of_pairs members = before ++ kv :: after ->
  Forall (entry_found w (index_root self)) before ->
  entry_refused w (index_root self) kv ->
  __enter__ self w
  = (Raise (registry_entry_invalid (index_path_of self) kv.1),
     logged (OpenRead (index_path_of self)
               :: (PathExists <$> (omap (entry_path (index_root self)) before
                                     ++ option_list (entry_path (index_root self) kv))))
            w).
Proof.
  intros [Hread Hdoc]%registry_document_read Hparse Hdict
         Hbefore%entries_found_valid Hkv%entry_refused_invalid.
  rewrite enter_run. cbv zeta. rewrite Hread, Hdoc, Hparse, Hdict.
  by destruct (first_invalid_app _ _ _ _ after Hbefore Hkv) as [-> ->].
Qed.
End LoadedRegistry.

Section LoadedRegistryRun.
#[local] Existing Instance Demo.demo.

(** X9 at work: French in the registry of the two languages. *)
Lemma listed_codes_resolve_witness :
  exists stem,
    dict_get "fr" (path_mapping Demo.english_french) = Some stem /\
    get_path Demo.english_french "fr"
      (__enter__ (LanguageDataIndex_init None) Demo.two_languages).2
      = (Ok (joinpath (index_root (LanguageDataIndex_init None)) (stem ++ ".txt")),
         (__enter__ (LanguageDataIndex_init None) Demo.two_languages).2) /\
    is_Some (files (__enter__ (LanguageDataIndex_init None) Demo.two_languages).2
               !! joinpath (index_root (LanguageDataIndex_init None)) (stem ++ ".txt")).
Proof.
  apply (listed_codes_resolve (LanguageDataIndex_init None) Demo.two_languages
           Demo.english_french).
  - vm_compute. reflexivity.
  - by_computation.
Defined.

(** X10 at work: the English list exists and the French one does not. *)
Lemma registry_rejected_at_first_bad_entry_witness :
  __enter__ (LanguageDataIndex_init None) Demo.french_missing
  = (Raise (registry_entry_invalid "/srv/languages.json" "fr"),
     logged [OpenRead "/srv/languages.json"; PathExists "/srv/english.txt";
             PathExists "/srv/french.txt"]
            Demo.french_missing).
Proof.
  etrans.
  - apply (registry_rejected_at_first_bad_entry (LanguageDataIndex_init None)
             Demo.french_missing Demo.doc_en_fr
             [("en", JString "english"); ("fr", JString "french")]
             [("en", JString "english")] ("fr", JString "french") []).
    + vm_compute. reflexivity.
    + vm_compute. reflexivity.
    + reflexivity.
    + constructor; [|constructor]. exists "english". split; [done|].
      vm_compute. reflexivity.
    + right. exists "french". split; [done|]. vm_compute. reflexivity.
  - vm_compute. reflexivity.
Defined.
End LoadedRegistryRun.

(** ** Line ends *)

Lemma length_universal_newlines s :
  String.length (universal_newlines s) <= String.length s.
Proof.
  assert (forall n s, String.length s <= n ->
            String.length (universal_newlines s) <= String.length s) as Hgen.
  { clear s. induction n as [|n IH]; intros [|c s] Hn;
      try (simpl; lia); simpl in Hn; try lia.
    change (universal_newlines (String c s)) with
      (if Ascii.eqb c CR then
         match s with
         | String c' rest' =>
             if Ascii.eqb c' LF then String LF (universal_newlines rest')
             else String LF (universal_newlines s)
         | EmptyString => String LF EmptyString
         end
       else String c (universal_newlines s)).
    destruct (Ascii.eqb c CR).
    - destruct s as [|c' s']; [simpl; lia|].
      destruct (Ascii.eqb c' LF).
      + specialize (IH s'). simpl in *. lia.
      + specialize (IH (String c' s')).
        change (String.length (String LF (universal_newlines (String c' s'))))
          with (S (String.length (universal_newlines (String c' s')))).
        simpl String.length in *. lia.
    - specialize (IH s).
      change (String.length (String c (universal_newlines s)))
        with (S (String.length (universal_newlines s))).
      simpl String.length. lia. }
  by apply (Hgen (String.length s)).
Qed.

Section LineEnds.
Context `{Platform}.

(** X11. Sorting a list whose lines, as read, are normalised and strictly
    increasing in sort key returns and keeps the lines, and writes every
    line end as a single line feed: the file then holds its former text
    with each carriage return and line feed, and each lone carriage
    return, replaced by a line feed. *)
Theorem sort_rewrites_line_ends self lang w path f m locale :
  lang_path self lang = Some path ->
  files w !! path = Some f ->
  readable f = true ->
  writable f = true ->
  icu = Some m ->
  getAvailableLocales m !! lang = Some locale ->
  Forall (fun l => normalize_NFC l = l) (readlines (content f)) ->
  StronglySorted (fun a b => key_lt (sort_key m locale IDENTICAL) a b = true)
                 (readlines (content f)) ->
  exists w',
    merge_language_files self lang [] w = (Ok tt, w') /\
    files w' = <[path := File (universal_newlines (content f)) true true]> (files w).
Proof.
  intros Hpath Hfile Hrd Hwr Hicu Hloc Hnfc Hsorted.
  rewrite merge_language_files_run. unfold lang_path in Hpath.
  destruct (dict_get lang (path_mapping self)) as [stem|]; [|done].
  injection Hpath as Hpath. cbv zeta. rewrite Hpath.
  assert (can_read w path = true) as ->.
  { unfold can_read. by rewrite Hfile. }
  simpl first_unreadable. cbv iota.
  set (lines := readlines (content f)) in *.
  assert (input_lines w path [] = lines) as ->.
  { unfold input_lines, lines_of. rewrite Hfile. simpl. by rewrite app_nil_r. }
  assert (set_iter (word_set lines) ≡ₚ lines) as Hperm.
  { unfold word_set. rewrite (fmap_fixed _ _ Hnfc), set_iter_perm.
    apply elements_list_to_set. by eapply strictly_sorted_NoDup. }
  assert (sort_answer lang (set_iter (word_set lines)) = Ok lines) as ->.
  { unfold sort_answer. rewrite Hicu, Hloc. f_equal.
    trans (sorted (sort_key m locale IDENTICAL) lines).
    - apply sorted_unique; [|done].
      intros x y Hx Hy. rewrite Hperm in Hx, Hy.
      by eapply strictly_sorted_key_inj.
    - by apply sorted_fixed, strictly_sorted_le. }
  unfold lines at 1. rewrite writelines_readlines.
  pose proof (length_universal_newlines (content f)) as Hlen.
  unfold store_file. simpl. rewrite Hfile. simpl. rewrite Hwr, Hrd.
  rewrite bool_decide_eq_false_2 by done.
  rewrite bool_decide_eq_true_2 by lia.
  by eexists.
Qed.
End LineEnds.

Section LineEndsRun.
#[local] Existing Instance Demo.demo.

(** X11 at work: two lines ended by carriage return and line feed. *)
Lemma sort_rewrites_line_ends_witness :
  exists w',
    merge_language_files Demo.english "en" [] Demo.crlf_list = (Ok tt, w') /\
    files w'
    = <[ "/srv/english.txt"
         := File (universal_newlines
                    (content (Demo.plain ("a" ++ String CR Demo.nl
                                          ++ "b" ++ String CR Demo.nl)))) true true ]>
        (files Demo.crlf_list).
Proof.
  apply (sort_rewrites_line_ends Demo.english "en" Demo.crlf_list "/srv/english.txt"
           (Demo.plain ("a" ++ String CR Demo.nl ++ "b" ++ String CR Demo.nl))
           Demo.demo_icu "en").
  - reflexivity.
  - vm_compute. reflexivity.
  - reflexivity.
  - reflexivity.
  - reflexivity.
  - vm_compute. reflexivity.
  - by_computation.
  - by_computation.
Defined.

(** The text of that list before and after the sort. *)
Example scenario_line_ends :
  universal_newlines ("a" ++ String CR Demo.nl ++ "b" ++ String CR Demo.nl)
  = writelines [Demo.line "a"; Demo.line "b"].
Proof. reflexivity. Qed.
End LineEndsRun.

(** ** One merge after another *)

Section MergeCompose.
Context `{Platform}.

Lemma merge_ok_inv_space self lang new_paths w w1 u :
  merge_language_files self lang new_paths w = (Ok u, w1) ->
  exists path words,
    lang_path self lang = Some path /\
    can_read w path = true /\
    Forall (fun p => can_read w p = true) new_paths /\
    sort_answer lang (set_iter (word_set (input_lines w path new_paths))) = Ok words /\
    files w1 = <[path := File (writelines words) true true]> (files w) /\
    free_space w1 + String.length (writelines words)
    = free_space w + from_option (fun f => String.length (content f)) 0 (files w !! path) /\
    writable <$> files w !! path ≠ Some false.
Proof.
  rewrite merge_language_files_run. unfold lang_path.
  destruct (dict_get lang (path_mapping self)) as [stem|]; [|done].
  cbv zeta. set (path := joinpath _ _).
  destruct (can_read w path) eqn:Hread; [|done].
  destruct (first_unreadable w new_paths) as [bad|] eqn:Hbad; [done|].
  apply first_unreadable_None in Hbad.
  destruct (sort_answer lang _) as [words|e] eqn:Hsort; [|done].
  rewrite logged_logged, store_file_logged. unfold store_file.
  case_bool_decide as Hwr; [done|]. case_bool_decide as Hfits; [|done].
  intros [= <- <-]. exists path, words. simpl.
  assert (from_option readable true (files w !! path) = true) as ->.
  { unfold can_read in Hread. by destruct (files w !! path). }
  repeat split; try done. lia.
Qed.

Lemma first_unreadable_ext w1 w2 paths :
  (forall p, can_read w1 p = can_read w2 p) ->
  first_unreadable w1 paths = first_unreadable w2 paths.
Proof.
  intros Hext. induction paths as [|p ps IH]; simpl; [done|].
  by rewrite Hext, IH.
Qed.

Lemma first_unreadable_app w paths1 paths2 :
  Forall (fun p => can_read w p = true) paths1 ->
  first_unreadable w (paths1 ++ paths2) = first_unreadable w paths2.
Proof.
  induction 1 as [|p ps Hp _ IH]; simpl; [done|]. by rewrite Hp.
Qed.

(** X12. Merging some new files and then, into the same language, some
    more gives what merging them all at once gives: the same outcome, the
    same files and the same free space. This holds when the files of the
    second merge can be read, and the normalised lines read by the first
    are each ended by one line feed and are not changed by normalising
    them again. *)
Theorem merges_compose self lang paths1 paths2 w w1 path :
  merge_language_files self lang paths1 w = (Ok tt, w1) ->
  lang_path self lang = Some path ->
  Forall (fun s => is_line (normalize_NFC s) = true) (input_lines w path paths1) ->
  (forall s, s ∈ input_lines w path paths1 ->
             normalize_NFC (normalize_NFC s) = normalize_NFC s) ->
  Forall (fun p => can_read w p = true) paths2 ->
  let two_steps := merge_language_files self lang paths2 w1 in
  let one_step := merge_language_files self lang (paths1 ++ paths2) w in
  two_steps.1 = one_step.1 /\
  files two_steps.2 = files one_step.2 /\
  free_space two_steps.2 = free_space one_step.2.
Proof.
  intros Hrun Hpath Hlines Hidem Hreads2 two_steps one_step.
  subst two_steps one_step.
  destruct (merge_ok_inv_space _ _ _ _ _ _ Hrun)
    as (path' & words & Hpath' & Hread & Hreads1 & Hsort & Hfiles & Hspace & Hwr).
  assert (path' = path) as -> by congruence.
  pose proof (sort_answer_perm _ _ _ Hsort) as Hperm.
  destruct (sort_answer_ok _ _ _ Hsort) as (m & locale & Hicu & Hloc & _).
  set (S := word_set (input_lines w path paths1)) in *.
  assert (forall v, v ∈ words <-> v ∈ S) as Hmem.
  { intros v. by rewrite Hperm, elem_of_set_iter. }
  assert (Forall (fun s => is_line s = true) words) as Hwords.
  { rewrite Forall_forall. intros v (s & Hs & ->)%Hmem%elem_of_word_set.
    rewrite Forall_forall in Hlines. by apply Hlines. }
  assert (forall v, v ∈ words -> normalize_NFC v = v) as Hfixed.
  { intros v (s & Hs & ->)%Hmem%elem_of_word_set. by apply Hidem. }
  assert (lines_of w1 path = words) as Hlines1.
  { unfold lines_of. rewrite Hfiles, lookup_insert_eq. simpl.
    by apply readlines_writelines. }
  assert (forall p, p ≠ path -> lines_of w1 p = lines_of w p) as Hlines2.
  { intros p Hp. unfold lines_of. by rewrite Hfiles, lookup_insert_ne. }
  assert (forall p, can_read w1 p = can_read w p) as Hcan.
  { intros p. unfold can_read. rewrite Hfiles.
    destruct (decide (p = path)) as [->|Hne].
    - rewrite lookup_insert_eq. simpl. unfold can_read in Hread. by rewrite Hread.
    - by rewrite lookup_insert_ne. }
  assert (word_set (input_lines w1 path paths2)
          = word_set (input_lines w path (paths1 ++ paths2))) as Hset.
  { apply (anti_symm (⊆)); intros v; rewrite !elem_of_word_set.
    - intros (s & (p & Hp & Hs)%elem_of_input_lines & ->).
      destruct (decide (p = path)) as [->|Hne].
      + rewrite Hlines1 in Hs. rewrite (Hfixed _ Hs).
        apply Hmem, elem_of_word_set in Hs as (s0 & Hs0 & ->).
        exists s0. split; [|done].
        apply elem_of_input_lines in Hs0 as (p0 & Hp0 & Hs0).
        apply elem_of_input_lines. exists p0. split; [|done].
        rewrite elem_of_cons, elem_of_app. rewrite elem_of_cons in Hp0. tauto.
      + rewrite (Hlines2 _ Hne) in Hs. exists s. split; [|done].
        apply elem_of_input_lines. exists p. split; [|done].
        rewrite elem_of_cons, elem_of_app. rewrite elem_of_cons in Hp. tauto.
    - intros (s & (p & Hp & Hs)%elem_of_input_lines & ->).
      rewrite elem_of_cons, elem_of_app in Hp.
      destruct (decide (p ∈ path :: paths1)) as [Hin|Hout].
      + assert (normalize_NFC s ∈ words) as Hv.
        { apply Hmem, elem_of_word_set. exists s. split; [|done].
          apply elem_of_input_lines. by exists p. }
        exists (normalize_NFC s). split; [|by rewrite (Hfixed _ Hv)].
        apply elem_of_input_lines. exists path. split; [by left|].
        by rewrite Hlines1.
      + rewrite elem_of_cons in Hout.
        assert (p ≠ path /\ p ∈ paths2) as [Hne Hp2] by tauto.
        exists s. split; [|done]. apply elem_of_input_lines.
        exists p. split; [by right|]. by rewrite (Hlines2 _ Hne). }
  rewrite !merge_language_files_run. unfold lang_path in Hpath.
  destruct (dict_get lang (path_mapping self)) as [stem|]; [|done].
  injection Hpath as Hpath. cbv zeta. rewrite Hpath.
  rewrite Hcan, Hread.
  rewrite (first_unreadable_ext w1 w paths2 Hcan).
  rewrite (first_unreadable_app _ _ _ Hreads1).
  apply first_unreadable_None in Hreads2. rewrite Hreads2.
  rewrite Hset. unfold sort_answer. rewrite Hicu, Hloc.
  set (answer := sorted _ _).
  rewrite !logged_logged, !store_file_logged.
  unfold store_file. rewrite Hfiles, lookup_insert_eq. simpl.
  assert (from_option readable true (files w !! path) = true) as Hrd.
  { unfold can_read in Hread. by destruct (files w !! path). }
  rewrite (bool_decide_eq_false_2 (writable <$> files w !! path = Some false)) by done.
  rewrite !insert_insert_eq.
  replace (free_space w1 + String.length (writelines words))
    with (free_space w
          + from_option (fun f => String.length (content f)) 0 (files w !! path))
    by lia.
  rewrite Hrd. by case_bool_decide.
Qed.
End MergeCompose.

Section MergeComposeRun.
#[local] Existing Instance Demo.demo.

(** X12 at work: one new file, then another, against both at once. *)
Lemma merges_compose_witness :
  let two_steps :=
    merge_language_files Demo.english "en" ["/tmp/more.txt"]
      (merge_language_files Demo.english "en" ["/tmp/new.txt"] Demo.three_files).2 in
  let one_step :=
    merge_language_files Demo.english "en" (["/tmp/new.txt"] ++ ["/tmp/more.txt"])
      Demo.three_files in
  two_steps.1 = one_step.1 /\
  files two_steps.2 = files one_step.2 /\
  free_space two_steps.2 = free_space one_step.2.
Proof.
  apply (merges_compose Demo.english "en" ["/tmp/new.txt"] ["/tmp/more.txt"]
           Demo.three_files _ "/srv/english.txt").
  - vm_compute. reflexivity.
  - reflexivity.
  - by_computation.
  - intros s Hs.
    assert (s ∈ [Demo.line "b"; Demo.line "a"]) as Hin by exact Hs.
    rewrite !elem_of_cons in Hin.
    destruct Hin as [->|[->|Hin]]; try (vm_compute; reflexivity).
    by apply elem_of_nil in Hin.
  - by_computation.
Defined.

(** What both ways leave in the list. *)
Example scenario_two_merges :
  content <$>
    files (merge_language_files Demo.english "en" ["/tmp/more.txt"]
             (merge_language_files Demo.english "en" ["/tmp/new.txt"]
                Demo.three_files).2).2 !! "/srv/english.txt"
  = Some (writelines [Demo.line "a"; Demo.line "b"; Demo.line "c"]).
Proof. vm_compute. reflexivity. Qed.
End MergeComposeRun.

(** ** An empty registry *)

Section EmptyRegistry.
Context `{Platform}.

(** X13. When the registry is the empty object, sorting all languages
    returns having read the registry and done nothing else, with or
    without the [icu] module. *)
Theorem sort_all_of_empty_registry w :
  registry_document (LanguageDataIndex_init None) w = Some (JObject []) ->
  cli CmdSortAll w
  = (Ok tt, logged [OpenRead (index_path_of (LanguageDataIndex_init None))] w).
Proof.
  intros Hdoc. unfold cli. rewrite with_run. unfold bind. rewrite enter_run.
  cbv zeta.
  assert (can_read w (index_path_of (LanguageDataIndex_init None)) = true) as ->.
  { unfold registry_document in Hdoc. by destruct (can_read w _). }
  by rewrite Hdoc.
Qed.
End EmptyRegistry.

Section EmptyRegistryRun.
#[local] Existing Instance Demo.demo_empty_object.

(** X13 at work, on a platform without [icu]. *)
Lemma sort_all_of_empty_registry_witness :
  cli CmdSortAll Demo.empty_registry
  = (Ok tt,
     logged [OpenRead (index_path_of (LanguageDataIndex_init None))]
            Demo.empty_registry).
Proof.
  apply (sort_all_of_empty_registry Demo.empty_registry).
  vm_compute. reflexivity.
Defined.
End EmptyRegistryRun.

(** ** A list that cannot be written *)

Section ReadOnly.
Context `{Platform}.

(** X14. When the file of the language can be read but not written, and
    the new files can be read and the collator is there, the merge reads
    them all, tries to open the language file for writing, and raises the
    write failure naming the stem; every file and the free space are as
    they were. *)
Theorem merge_into_read_only_list_fails self lang new_paths w stem f m locale :
  dict_get lang (path_mapping self) = Some stem ->
  files w !! joinpath (root_path self) (stem ++ ".txt") = Some f ->
  readable f = true ->
  writable f = false ->
  Forall (fun p => can_read w p = true) new_paths ->
  icu = Some m ->
  getAvailableLocales m !! lang = Some locale ->
  let path := joinpath (root_path self) (stem ++ ".txt") in
  merge_language_files self lang new_paths w
  = (Raise (write_failure stem),
     logged (OpenRead path :: (OpenRead <$> new_paths) ++ [OpenWrite path]) w).
Proof.
  intros Hstem Hfile Hrd Hwr Hreads Hicu Hloc path.
  rewrite merge_language_files_run, Hstem. cbv zeta. fold path.
  assert (can_read w path = true) as ->.
  { unfold can_read, path. by rewrite Hfile. }
  apply first_unreadable_None in Hreads. rewrite Hreads.
  unfold sort_answer. rewrite Hicu, Hloc.
  rewrite !logged_logged, store_file_logged. unfold store_file.
  rewrite bool_decide_eq_true_2.
  - done.
  - unfold path. by rewrite Hfile, <- Hwr.
Qed.
End ReadOnly.

Section ReadOnlyRun.
#[local] Existing Instance Demo.demo.

(** X14 at work: sorting the English list that cannot be written. *)
Lemma merge_into_read_only_list_fails_witness :
  merge_language_files Demo.english "en" [] Demo.read_only_list
  = (Raise (write_failure "english"),
     logged (OpenRead (joinpath (root_path Demo.english) ("english" ++ ".txt"))
               :: (OpenRead <$> [])
               ++ [OpenWrite (joinpath (root_path Demo.english) ("english" ++ ".txt"))])
            Demo.read_only_list).
Proof.
  apply (merge_into_read_only_list_fails Demo.english "en" [] Demo.read_only_list
           "english" (File (Demo.line "b" ++ Demo.line "a") true false)
           Demo.demo_icu "en").
  - reflexivity.
  - vm_compute. reflexivity.
  - reflexivity.
  - reflexivity.
  - constructor.
  - reflexivity.
  - vm_compute. reflexivity.
Defined.
End ReadOnlyRun.

(** ** Two spellings of one word *)

Section OneLinePerWord.
Context `{Platform}.

(** C2 (as amended). When the normalised lines a merge reads are each ended
    by one line feed, and among the lines read are two spellings of a word
    that are canonically equivalent but differ as strings, then the lines
    of the file the merge leaves are the sorted set of the normalised
    lines, and the normalised spelling is exactly one of them; and,
    normalising a normalised line of the input changing nothing, every
    line of the file canonically equivalent to the word is that one. *)
Theorem merge_leaves_one_line_for_equivalent_spellings
    self lang new_paths w w' path word1 word2 :
  merge_language_files self lang new_paths w = (Ok tt, w') ->
  lang_path self lang = Some path ->
  word1 ∈ input_lines w path new_paths ->
  word2 ∈ input_lines w path new_paths ->
  word1 ≠ word2 ->
  canonically_equivalent word1 word2 ->
  Forall (fun s => is_line (normalize_NFC s) = true) (input_lines w path new_paths) ->
  exists m locale,
    icu = Some m /\
    getAvailableLocales m !! lang = Some locale /\
    lines_of w' path
    = sorted (sort_key m locale IDENTICAL)
        (set_iter (word_set (input_lines w path new_paths))) /\
    count_occ string_dec (lines_of w' path) (normalize_NFC word1) = 1 /\
    ((forall s, s ∈ input_lines w path new_paths ->
                normalize_NFC (normalize_NFC s) = normalize_NFC s) ->
     forall v, v ∈ lines_of w' path -> canonically_equivalent v word1 ->
               v = normalize_NFC word1).
Proof.
  intros Hrun Hpath Hin1 _ _ _ Hlines.
  destruct (merge_ok_inv _ _ _ _ _ _ Hrun)
    as (path' & words & Hpath' & _ & _ & Hsort & Hfile & _).
  assert (path' = path) as -> by congruence.
  pose proof (sort_answer_perm _ _ _ Hsort) as Hperm.
  destruct (sort_answer_ok _ _ _ Hsort) as (m & locale & Hicu & Hloc & Hwords).
  assert (forall v, v ∈ words <-> v ∈ word_set (input_lines w path new_paths)) as Hmem.
  { intros v. by rewrite Hperm, elem_of_set_iter. }
  assert (Forall (fun s => is_line s = true) words) as Hterminated.
  { rewrite Forall_forall. intros v (s & Hs & ->)%Hmem%elem_of_word_set.
    rewrite Forall_forall in Hlines. by apply Hlines. }
  assert (lines_of w' path = words) as Hread.
  { unfold lines_of. rewrite Hfile. simpl. by apply readlines_writelines. }
  exists m, locale. rewrite Hread. do 2 (split; [done|]).
  split; [done|]. split.
  - apply (proj1 (NoDup_count_occ' string_dec words)).
    + apply NoDup_ListNoDup. rewrite Hperm. apply set_iter_NoDup.
    + apply list_elem_of_In, Hmem, elem_of_word_set. by exists word1.
  - intros Hidem v (s & Hs & ->)%Hmem%elem_of_word_set Hequiv.
    unfold canonically_equivalent in Hequiv. by rewrite (Hidem s Hs) in Hequiv.
Qed.
End OneLinePerWord.

Section OneLinePerWordRun.
#[local] Existing Instance Demo.demo.

(** C2 at work: the English list spells cafe composed, the new file spells
    it decomposed, every line is terminated; the file left holds the
    composed spelling on one line. *)
Lemma merge_leaves_one_line_for_equivalent_spellings_witness :
  exists m locale,
    icu = Some m /\
    getAvailableLocales m !! "en" = Some locale /\
    lines_of (merge_language_files Demo.english "en" ["/tmp/new.txt"]
                Demo.two_spellings).2 "/srv/english.txt"
    = sorted (sort_key m locale IDENTICAL)
        (set_iter (word_set (input_lines Demo.two_spellings "/srv/english.txt"
                               ["/tmp/new.txt"]))) /\
    count_occ string_dec
      (lines_of (merge_language_files Demo.english "en" ["/tmp/new.txt"]
                   Demo.two_spellings).2 "/srv/english.txt")
      (normalize_NFC (Demo.line Demo.cafe_composed)) = 1 /\
    ((forall s, s ∈ input_lines Demo.two_spellings "/srv/english.txt" ["/tmp/new.txt"] ->
                normalize_NFC (normalize_NFC s) = normalize_NFC s) ->
     forall v,
       v ∈ lines_of (merge_language_files Demo.english "en" ["/tmp/new.txt"]
                       Demo.two_spellings).2 "/srv/english.txt" ->
       canonically_equivalent v (Demo.line Demo.cafe_composed) ->
       v = normalize_NFC (Demo.line Demo.cafe_composed)).
Proof.
  apply (merge_leaves_one_line_for_equivalent_spellings Demo.english "en"
           ["/tmp/new.txt"] Demo.two_spellings _ "/srv/english.txt"
           (Demo.line Demo.cafe_composed) (Demo.line Demo.cafe_decomposed)).
  - vm_compute. reflexivity.
  - reflexivity.
  - by_computation.
  - by_computation.
  - by_computation.
  - vm_compute. reflexivity.
  - by_computation.
Defined.

(** C2 (counterexample). The lines read hold cafe composed and decomposed,
    each terminated, and the new file ends in cafe without terminator. The
    merge returns; the unterminated line, sorted first, runs into the
    terminated one, the file left holds the one line of the word written
    twice, and no line of it is the word. *)
Lemma unterminated_line_fuses_spellings :
  let path := "/srv/english.txt" in
  let inputs := input_lines Demo.unterminated_spelling path ["/tmp/new.txt"] in
  let out := merge_language_files Demo.english "en" ["/tmp/new.txt"]
               Demo.unterminated_spelling in
  Demo.line Demo.cafe_composed ∈ inputs /\
  Demo.line Demo.cafe_decomposed ∈ inputs /\
  Demo.line Demo.cafe_composed ≠ Demo.line Demo.cafe_decomposed /\
  canonically_equivalent (Demo.line Demo.cafe_composed)
                         (Demo.line Demo.cafe_decomposed) /\
  out.1 = Ok tt /\
  content <$> files out.2 !! path
    = Some (writelines [Demo.cafe_composed; Demo.line Demo.cafe_composed]) /\
  lines_of out.2 path = [writelines [Demo.cafe_composed; Demo.line Demo.cafe_composed]] /\
  count_occ string_dec (lines_of out.2 path)
            (normalize_NFC (Demo.line Demo.cafe_composed)) = 0.
Proof.
  cbv zeta.
  split; [by_computation|]. split; [by_computation|]. split; [by_computation|].
  vm_compute. repeat split; reflexivity.
Qed.
End OneLinePerWordRun.

(** ** The exception of each kind of failure *)

Section FailureKinds.
Context `{Platform}.


End FailureKinds.

Section FailureKindsRun.
#[local] Existing Instance Demo.demo.

End FailureKindsRun.
